(* ===== verification/_CoqProject ===== *)
-Q . S2P
Prelude.v
CString.v
Pipe.v
Mutex.v
Server.v
Scenarios.v
ServerInv.v
ServerCount.v
Client.v
Delivery.v
Registry.v
Refinement.v
Lifecycle.v
