(* ===== verification/Prelude.v ===== *)
(** * A verification of the named-pipe chat server ([src/server.c]) and client

    ** The program
    [src/server.c] creates the FIFO [/tmp/ServerPipe] ([unlink], [mkfifo],
    lines 72-82), opens it for reading ([serverFd], 85) and loops
    (95-116): it opens the FIFO again ([clientFd], 96), and under the mutex
    [clientsMutex] either admits the connection, when
    [connectedClientsCount < MAX_CLIENTS], by incrementing the counter and
    starting a [ClientHandler] thread with the address of [clientFd]
    (99-103), or closes it (105); then it tests [exitFlag] (110-115).
    [ClientHandler] (32-69) copies its descriptor out of [main]'s
    [clientFd], increments the counter again (37-39), unlocks the mutex a
    second time (42), and loops reading up to 256 bytes (45), printing them
    with [printf("%s")] (47), decrementing the counter on end of file
    (50-52) and testing [exitFlag] (59-64).  The code after the loop
    (118-124) sets [exitFlag] and closes [serverFd].  [src/client.c] opens
    the FIFO for writing and sends NUL-terminated lines ("NAME joined",
    "NAME: MESSAGE", "NAME exited").

    ** The files
    - [Prelude]: transition sequences ([star], [run] of a labelled step
      function, rule induction [star_invariant]), C [int] bounds, list
      lemmas, the tactics and the [chat] hint database.
    - [CString]: bytes and C strings; the [read] into a character array
      whose cells may be uninitialised ([buf_store], [cbuf]), what
      [printf("%s")] reads ([read_cstr], with its undefined behaviours),
      [fgets], [snprintf], [strncmp].
    - [Pipe]: the kernel side: the FIFO (writers, buffered bytes) and the
      server's descriptor table; [unlink], [mkfifo], [open] (lowest free
      descriptor, blocking while no writer exists), [read] (at most [n]
      bytes, end of file when no writer is left, EBADF), [close]; the
      clients' [open], [write] (atomic up to [PIPE_BUF]) and [close].
      These are the platform's behaviour, not code of the repository, and
      carry no claim of their own.
    - [Mutex]: [clientsMutex]; the interface [MutexSem] of
      [pthread_mutex_unlock] and its two implementations: glibc's default
      mutex ([normal_mutex]: an unlock releases whoever holds it) and an
      error-checking one ([errorcheck_mutex], [CheckedMutex]: an unlock by a
      non-owner changes nothing).  POSIX leaves the case undefined.
    - [Server]: the process as an interleaving of threads.  [sys] holds the
      globals, [main]'s [clientFd] (one cell shared by every worker through
      [&clientFd]), the workers (program counter, descriptor, register,
      [buffer]), the kernel, and a log of outputs and undefined behaviours.
      [main_step] and [worker_step] execute one statement of [main] and of
      [ClientHandler]; [connectedClientsCount++] is a load and a store.
      [step] picks a thread by its label; [reachable] is the reflexive
      transitive closure from [init].
    - [Scenarios]: concrete schedules, run by [vm_compute]; they give the
      witnesses their reachable states.
    - [ServerInv]: invariants under any [MutexSem]: [exitFlag] stays 0 and
      the code after the loop is dead (C4); the owner of the mutex is in a
      critical section; every [buffer] keeps its 256 cells; every unlock at
      line 42 is by a non-owner (C5).  With glibc's mutex that unlock frees
      a mutex another thread holds, and a waiting worker enters its
      critical section beside the owner (C6).
    - [ServerCount]: under a [CheckedMutex] the critical sections exclude
      each other and the counter equals an exact accounting (C2): a worker
      counts 2 while its client is connected and 1 before it starts and
      after it finishes, so at most [MAX_CLIENTS] threads are ever created
      (C1), admission closes for good after ten clients (C3), and the
      counter stays in [0, 20] (C7).
    - [Client]: [src/client.c] as a state machine over its standard input
      ([client]: the stage of its loops, [serverFd], [username],
      [usernameJoined], [message], the remaining input, the outcomes of the
      coming [write]s and the bytes written).  [client_step] is one pass of
      the open retry loop, the password check or the inner loop body
      ([loop_step]); [run_client] iterates it with fuel.  Theorems: a
      session from password to [exit] sends exactly its joined, message and
      exited lines and exits 0 (C9); the password check and the exit
      command are prefix tests (C10, C11); at end of input the client sends
      its last message forever (C12); every write is at most 307 bytes
      (C13); a user name of 49 bytes or more is cut, and the rest of its
      line is sent as the first message (C21); every write is a C string
      and its one NUL (C22).  [Server.client_step] is the environment of
      the server: any [open], atomic [write] and [close] of some client, an
      over-approximation of [src/client.c] seen from the FIFO.
    - [Delivery]: the two programs composed through the FIFO.  A worker
      blocked at its [read] ([ready]) prints a message written in one
      [write] exactly and is ready again ([deliver_one]); so the session of
      C9, each write read before the next, is printed line by line in
      order ([session_printed], C14), while two writes buffered before one
      [read] lose the second message ([coalesced_write_lost], C15).  For
      any input of the client, writes that fit the buffer and are read one
      by one are printed as their C strings ([client_writes_printed],
      C23).  A [read] that fills [buffer] with no NUL makes the [printf]
      of line 47 read past its end ([full_read_overruns], C8).  The
      preconditions are met by reachable states ([st_ready], [st_full]).
    - [Registry]: the contract of [spec.md], independent of the code: the
      Connection Registry ([tryAdmit], [release], [requestShutdown], the
      invariant [activeCount <= capacity], which its operations keep).
    - [Refinement]: the abstraction [reg_abs] from the server model to the
      Registry.  Under a [CheckedMutex] every step is a stutter or an
      operation of the Registry, except the unguarded increment of line 38
      (C16), and every access to the Registry's fields is made by the
      owner of the mutex (C17).  Under any mutex the owner of the mutex can
      always take its next step (C20).
    - [Lifecycle]: how a worker ends.  Once no client holds the FIFO open,
      a worker at its [read] decrements, closes its descriptor and exits in
      six statements (C18).  A worker created for a failed [open]
      (descriptor -1) spins forever through lines 45-63 without changing
      the state (C19).

    ** Bounds and choices
    The server model has no fuel: [step] is total on every state and returns
    [None] only for a blocked or finished thread, so executions are label
    lists of any length and reachability is unbounded.  The schedules of
    [Scenarios] have at most a few hundred steps and serve only as
    witnesses.  Counters are [Z] with the bounds of a 32-bit [int] stated
    and proved ([count_bounds]).  The kernel is modelled at the level of
    the system calls the code makes; a failing system call of [main] is
    chosen by the label.  States after an undefined behaviour continue as
    the platform does (glibc's unlock, a [printf] that prints what it
    finds) and the behaviour is logged.  The client's [run_client] takes
    fuel, one unit per pass of a loop body; C9 states how much a session
    needs (open retries, one pass per line, four more), and C12 holds for
    every amount, which is how it states that the client never stops.

    ** Not modelled (yet)
    Delivery is stated for schedules that alternate one [write] and one
    read cycle of one worker; interleavings with other workers reading the
    same FIFO are not covered.  The refinement of the Registry is stated
    for an error-checking mutex, where the code's critical sections are
    atomic; with glibc's mutex C6 shows why no such statement holds.  The
    lifetime of [main]'s [clientFd] is modelled as one stack slot reused
    by every iteration, as compiled code does; the read of a dead
    iteration's variable is not logged as undefined behaviour.  The
    Acceptance Loop and Client Worker state machines of the specification
    are not modelled: a control-flow abstraction of the code says nothing
    the code's own step function does not.  Console formatting, [perror]
    texts, the prompts and [sleep] are not modelled. *)

From stdpp Require Export base list decidable sets.
From Stdlib Require Export ZArith Lia Strings.Byte.

Declare Scope chat_scope.
Delimit Scope chat_scope with chat.

(** ** Machine integers *)

(** The C [int] of the server (LP64 / ILP32: 32 bits, two's complement). *)
Definition INT_MIN : Z := -2147483648.
Definition INT_MAX : Z := 2147483647.

Definition int_range (z : Z) : Prop := (INT_MIN <= z <= INT_MAX)%Z.

#[export] Instance int_range_dec z : Decision (int_range z).
Proof. unfold int_range. apply _. Defined.

(** Bytes compare with stdpp's [decide]. *)
#[export] Instance byte_eq_decision : EqDecision byte := byte_eq_dec.

(** ** Transition sequences *)

Section Star.
Context {A : Type} (R : A -> A -> Prop).

Inductive star : A -> A -> Prop :=
| star_refl a : star a a
| star_step a b c : R a b -> star b c -> star a c.

Lemma star_one a b : R a b -> star a b.
Proof. eauto using star. Qed.

Lemma star_trans a b c : star a b -> star b c -> star a c.
Proof. induction 1; eauto using star. Qed.

Lemma star_right a b c : star a b -> R b c -> star a c.
Proof. eauto using star_trans, star_one. Qed.

(** The rule-induction principle for invariants of reachable states. *)
Lemma star_invariant (P : A -> Prop) :
  (forall a b, P a -> R a b -> P b) -> forall a b, star a b -> P a -> P b.
Proof. intros Hstep a b Hs. induction Hs; eauto. Qed.

End Star.

(** ** Executions driven by a labelled step function *)

Section Run.
Context {St L : Type} (step : St -> L -> option St).

(** [run s ls] performs the steps labelled [ls] in order; [None] when one
    of them is not enabled (a blocked thread, a finished thread). *)
Fixpoint run (s : St) (ls : list L) : option St :=
  match ls with
  | [] => Some s
  | l :: ls' => match step s l with Some s' => run s' ls' | None => None end
  end.

Definition Step (s s' : St) : Prop := exists l, step s l = Some s'.

Lemma run_star s ls s' : run s ls = Some s' -> star Step s s'.
Proof.
  revert s. induction ls as [|l ls IH]; simpl; intros s H.
  - injection H as <-. apply star_refl.
  - destruct (step s l) as [s1|] eqn:E; [|discriminate].
    eapply star_step; [exists l; exact E | eauto].
Qed.

Lemma run_app s ls1 ls2 :
  run s (ls1 ++ ls2) = match run s ls1 with Some s1 => run s1 ls2 | None => None end.
Proof.
  revert s. induction ls1 as [|l ls IH]; simpl; intros s; [done|].
  destruct (step s l); [apply IH|done].
Qed.

End Run.

(** ** Generic list lemmas *)

Lemma sum_list_with_insert {A} (f : A -> nat) (l : list A) i x y :
  l !! i = Some y ->
  sum_list_with f (<[i:=x]> l) + f y = sum_list_with f l + f x.
Proof.
  revert i. induction l as [|a l IH]; intros [|i] H; simpl in *; try discriminate.
  - injection H as ->. lia.
  - specialize (IH i H). lia.
Qed.

Lemma sum_list_with_snoc {A} (f : A -> nat) (l : list A) x :
  sum_list_with f (l ++ [x]) = sum_list_with f l + f x.
Proof. rewrite sum_list_with_app. simpl. lia. Qed.

Lemma sum_list_with_ge_length {A} (f : A -> nat) (l : list A) :
  (forall x, f x >= 1) -> sum_list_with f l >= length l.
Proof. intros Hf. induction l as [|a l IH]; simpl; [lia|]. specialize (Hf a). lia. Qed.

Lemma sum_list_with_le {A} (f : A -> nat) (l : list A) k :
  (forall x, f x <= k) -> sum_list_with f l <= k * length l.
Proof. intros Hf. induction l as [|a l IH]; simpl; [lia|]. specialize (Hf a). lia. Qed.

(** ** Proof automation *)

Ltac invc H := inversion H; subst; clear H.

(** Split a hypothesis [match e with ... end = Some _] on [e]. *)
Ltac case_some :=
  repeat match goal with
  | H : context [match ?e with _ => _ end] |- _ =>
      lazymatch e with context [match _ with _ => _ end] => fail | _ => destruct e eqn:? end
  end.

Create HintDb chat.
#[export] Hint Resolve star_refl star_one star_trans star_right : chat.
#[export] Hint Rewrite @sum_list_with_snoc @sum_list_with_app : chat.
