(* ===== verification/CString.v ===== *)
(** * C character arrays and the libc string functions the programs call

    Bytes are [Byte.byte]; a C string is represented by its contents, the
    bytes before the terminating NUL.  A stack array whose cells may still be
    uninitialised is a [cbuf], a list of [option byte] ([None]: never
    written).  The definitions model the libc calls of [src/server.c]
    ([read] into [buffer], [printf("%s")]) and [src/client.c] ([fgets],
    [snprintf], [strncmp], [strlen]) as the C standard specifies them. *)

From S2P Require Import Prelude.
From Stdlib Require String.

Module CString.

Definition NUL : byte := x00.
Definition NEWLINE : byte := x0a.

(** A string literal of the source, as its bytes (without the NUL). *)
Definition lit (s : String.string) : list byte := String.list_byte_of_string s.

(** The contents of a C string stored in [l]: the bytes before the first NUL. *)
Fixpoint cstr_prefix (l : list byte) : list byte :=
  match l with
  | [] => []
  | c :: l' => if decide (c = NUL) then [] else c :: cstr_prefix l'
  end.

(** The bytes a [write(fd, s, strlen(s) + 1)] of a C string puts on the wire. *)
Definition wire (s : list byte) : list byte := s ++ [NUL].

(** ** Character arrays *)

Definition cbuf := list (option byte).

(** [char buffer[n];] at block entry: no cell initialised. *)
Definition uninit (n : nat) : cbuf := replicate n None.

(** [read(fd, buffer, n)] returning [bs]: the first [length bs] cells are
    overwritten, the remaining cells keep their previous contents. *)
Definition buf_store (bs : list byte) (b : cbuf) : cbuf :=
  (Some <$> bs) ++ drop (length bs) b.

(** What [printf("%s", buffer)] reads: the bytes up to the first NUL, or
    undefined behaviour when it meets an uninitialised cell first or runs
    past the end of the array. *)
Inductive cstr_read :=
| CStr (s : list byte)
| CStrUninit
| CStrOverrun.

Fixpoint read_cstr (b : cbuf) : cstr_read :=
  match b with
  | [] => CStrOverrun
  | None :: _ => CStrUninit
  | Some c :: b' =>
      if decide (c = NUL) then CStr []
      else match read_cstr b' with CStr s => CStr (c :: s) | e => e end
  end.

(** ** Standard input *)

(** [fgets(buf, size, stdin)]: at most [size - 1] bytes, up to and
    including the first newline; [None] (a NULL return, the array left
    unchanged) when standard input is at end of file. *)
Fixpoint fgets_line (k : nat) (inp : list byte) : list byte * list byte :=
  match k, inp with
  | 0, _ => ([], inp)
  | _, [] => ([], [])
  | S k', c :: r =>
      if decide (c = NEWLINE) then ([c], r)
      else let '(l, r') := fgets_line k' r in (c :: l, r')
  end.

Definition fgets (size : nat) (inp : list byte) : option (list byte * list byte) :=
  match inp with
  | [] => None
  | _ => Some (fgets_line (size - 1) inp)
  end.

(** ** Formatting and comparison *)

(** [snprintf(buf, size, ...)] of the formatted bytes [s]: the contents
    stored is [s] truncated to [size - 1] bytes. *)
Definition snprintf (size : nat) (s : list byte) : list byte := take (size - 1) s.

(** [strncmp(a, b, n) == 0] on C strings with contents [a] and [b]. *)
Fixpoint strncmp_eq (n : nat) (a b : list byte) : bool :=
  match n, a, b with
  | 0, _, _ => true
  | S _, [], [] => true
  | S n', c :: a', d :: b' => bool_decide (c = d) && strncmp_eq n' a' b'
  | S _, _, _ => false
  end.

(** ** Lemmas *)

Lemma length_buf_store bs b :
  length bs <= length b -> length (buf_store bs b) = length b.
Proof. intros H. unfold buf_store. rewrite length_app, length_fmap, length_drop. lia. Qed.

Lemma read_cstr_app_some s b :
  NUL ∉ s ->
  read_cstr ((Some <$> s) ++ b) =
  match read_cstr b with CStr t => CStr (s ++ t) | e => e end.
Proof.
  induction s as [|c s IH]; intros Hn.
  - simpl. by destruct (read_cstr b).
  - rewrite fmap_cons. cbn [app read_cstr].
    rewrite decide_False by set_solver. rewrite IH by set_solver.
    by destruct (read_cstr b).
Qed.

(** A buffer into which [s ++ NUL :: t] was read prints exactly [s]: the
    bytes that follow the first NUL of a read are never printed. *)
Lemma read_cstr_store s t b :
  NUL ∉ s -> read_cstr (buf_store (s ++ NUL :: t) b) = CStr s.
Proof.
  intros Hn. unfold buf_store. rewrite fmap_app, <- app_assoc, read_cstr_app_some by done.
  rewrite fmap_cons. cbn [app read_cstr]. rewrite decide_True by done.
  by rewrite app_nil_r.
Qed.

(** A read that fills the whole buffer with no NUL leaves no terminator:
    [printf("%s")] runs past the end of the array. *)
Lemma read_cstr_store_full bs b :
  NUL ∉ bs -> length bs = length b -> read_cstr (buf_store bs b) = CStrOverrun.
Proof.
  intros Hn Hl. unfold buf_store. rewrite Hl, drop_all, read_cstr_app_some by done.
  done.
Qed.

Lemma cstr_prefix_no_nul s : NUL ∉ s -> cstr_prefix s = s.
Proof.
  induction s as [|c s IH]; simpl; intros Hn; [done|].
  rewrite decide_False by set_solver. f_equal. apply IH. set_solver.
Qed.

Lemma cstr_prefix_wire s t : NUL ∉ s -> cstr_prefix (wire s ++ t) = s.
Proof.
  induction s as [|c s IH]; intros Hn; [done|].
  cbn [wire app cstr_prefix] in *.
  rewrite decide_False by set_solver. f_equal. apply IH. set_solver.
Qed.

Lemma nul_not_in_cstr_prefix l : NUL ∉ cstr_prefix l.
Proof.
  induction l as [|c l IH]; simpl; [set_solver|].
  case_decide; [set_solver|]. rewrite elem_of_cons. intros [Heq|Hin]; [by subst|tauto].
Qed.

Lemma length_fgets_line k inp : length (fgets_line k inp).1 <= k.
Proof.
  revert inp. induction k as [|k IH]; intros [|c r]; simpl; try lia.
  case_decide; simpl; [lia|]. specialize (IH r). destruct (fgets_line k r); simpl in *. lia.
Qed.

(** [fgets] returns a line terminated by its newline when the line fits. *)
Lemma fgets_line_fits k l r :
  NEWLINE ∉ l -> length l < k -> fgets_line k (l ++ NEWLINE :: r) = (l ++ [NEWLINE], r).
Proof.
  revert k. induction l as [|c l IH]; intros [|k] Hn Hk; simpl in *; try lia.
  - done.
  - rewrite decide_False by set_solver. rewrite IH by (set_solver || lia). done.
Qed.

Lemma length_cstr_prefix s : length (cstr_prefix s) <= length s.
Proof. induction s as [|c s IH]; simpl; [lia|]. case_decide; simpl; lia. Qed.

Lemma length_fgets size inp l r : fgets size inp = Some (l, r) -> length l <= size - 1.
Proof.
  unfold fgets. destruct inp as [|b inp]; [done|]. intros [= H].
  pose proof (length_fgets_line (size - 1) (b :: inp)) as Hl. by rewrite H in Hl.
Qed.

Lemma length_snprintf_le size s : length (snprintf size s) <= length s.
Proof. unfold snprintf. rewrite length_take. lia. Qed.

(** A line longer than the buffer: [fgets] stops after [k] bytes and
    leaves the rest of the line in the stream. *)
Lemma fgets_line_long k l r :
  NEWLINE ∉ l -> length l = k -> fgets_line k (l ++ r) = (l, r).
Proof.
  revert k. induction l as [|c l IH]; intros [|k] Hn Hk; simpl in *; try lia; [done|].
  rewrite decide_False by set_solver. rewrite IH by (set_solver || lia). done.
Qed.

Lemma fgets_long size l r :
  NEWLINE ∉ l -> length l = size - 1 -> l <> [] -> fgets size (l ++ r) = Some (l, r).
Proof.
  intros Hn Hl Hne. unfold fgets. rewrite fgets_line_long by done. by destruct l.
Qed.

Lemma nul_not_in_snprintf size s : NUL ∉ s -> NUL ∉ snprintf size s.
Proof. intros Hn Hin. apply Hn. eapply elem_of_sublist; [exact Hin|apply sublist_take]. Qed.

Lemma snprintf_fits size s : length s < size -> snprintf size s = s.
Proof. intros H. unfold snprintf. apply take_ge. lia. Qed.

Lemma length_snprintf size s : length (snprintf size s) <= size - 1.
Proof. unfold snprintf. rewrite length_take. lia. Qed.

(** [strncmp(a, p, strlen(p)) == 0] holds exactly when [p] is a prefix of
    [a] (both NUL-free). *)
Lemma strncmp_eq_prefix a p :
  NUL ∉ p -> strncmp_eq (length p) a p = true <-> exists r, a = p ++ r.
Proof.
  revert a. induction p as [|d p IH]; intros a Hn; simpl.
  - split; [intros _; by exists a | done].
  - destruct a as [|c a]; simpl.
    + split; [done|]. intros [r Hr]. discriminate.
    + rewrite andb_true_iff, bool_decide_eq_true, IH by set_solver.
      split.
      * intros [-> [r ->]]. by exists r.
      * intros [r Hr]. injection Hr as -> ->. eauto.
Qed.

(** A line whose newline-terminated form starts with [a] (a newline-free
    word) itself starts with [a]. *)
Lemma prefix_of_line a p r :
  NEWLINE ∉ a -> p ++ [NEWLINE] = a ++ r -> exists r', p = a ++ r'.
Proof.
  revert p. induction a as [|x a IH]; intros p Hn H; [by exists p|].
  destruct p as [|y p]; simpl in H; injection H as <- H.
  - set_solver.
  - destruct (IH p) as [r' ->]; [set_solver|done|]. by exists r'.
Qed.

End CString.
