(* ===== verification/Pipe.v ===== *)
(** * The named pipe and the server's descriptor table

    The kernel objects the server of [src/server.c] works on: the FIFO
    [/tmp/ServerPipe] (its directory entry, the number of write ends the
    clients hold, the bytes written and not yet read) and the descriptor
    table of the server process, whose entries above stdin/stdout/stderr are
    all read ends of that FIFO.  Each operation is the POSIX/Linux behaviour
    of the system call at the line of [server.c] that the manifest names:
    [unlink] (73), [mkfifo] (79), [open(..., O_RDONLY)] (85, 96), [read] (45)
    and [close] (67, 105, 122).  The client side ([open(..., O_WRONLY)],
    [write], [close] of [src/client.c]) appears as the three writer
    operations. *)

From S2P Require Import Prelude.

Module Pipe.

Record kernel := mkKernel {
  k_fifo : bool;        (** the name [/tmp/ServerPipe] exists *)
  k_writers : nat;      (** open write ends (client descriptors) *)
  k_data : list byte;   (** bytes written and not yet read, oldest first *)
  k_fds : list Z        (** open descriptors of the server, in opening order *)
}.

(** Writes of at most [PIPE_BUF] bytes to a pipe are atomic. *)
Definition PIPE_BUF : nat := 4096.

(** ** Descriptor allocation: the lowest unused number *)

(** Descriptors 0, 1, 2 are the standard streams. *)
Definition FIRST_FD : Z := 3.

Fixpoint first_free (fuel : nat) (z : Z) (fds : list Z) : Z :=
  match fuel with
  | O => z
  | S f => if decide (z ∈ fds) then first_free f (z + 1) fds else z
  end.

Definition lowest_free (fds : list Z) : Z := first_free (length fds) FIRST_FD fds.

(** ** System calls of the server *)

Inductive unlink_result := UnlinkOk | UnlinkENOENT | UnlinkError.

(** [unlink(SERVER_PIPE_NAME)]; [ok = false] is a failure other than ENOENT
    (permissions, I/O). *)
Definition sys_unlink (k : kernel) (ok : bool) : kernel * unlink_result :=
  if negb ok then (k, UnlinkError)
  else if k_fifo k then (mkKernel false (k_writers k) (k_data k) (k_fds k), UnlinkOk)
  else (k, UnlinkENOENT).

(** [mkfifo(SERVER_PIPE_NAME, 0666)]: [None] is the [-1] return. *)
Definition sys_mkfifo (k : kernel) (ok : bool) : option kernel :=
  if negb ok || k_fifo k then None
  else Some (mkKernel true 0 [] (k_fds k)).

(** [open(SERVER_PIPE_NAME, O_RDONLY)]: blocks ([None]) while no client
    holds a write end; otherwise returns the lowest free descriptor.
    [ok = false] is a failing call (EINTR, EMFILE, ...): [-1]. *)
Definition sys_open_rd (k : kernel) (ok : bool) : option (kernel * Z) :=
  if negb ok || negb (k_fifo k) then Some (k, (-1)%Z)
  else if decide (k_writers k = 0) then None
  else let fd := lowest_free (k_fds k) in
       Some (mkKernel (k_fifo k) (k_writers k) (k_data k) (k_fds k ++ [fd]), fd).

Inductive read_result :=
| RData (bs : list byte)   (** [bytesRead = length bs > 0] *)
| REof                     (** [bytesRead = 0]: no writer left *)
| RErr.                    (** [bytesRead = -1] *)

(** [read(fd, buffer, n)] on a read end of the FIFO: the oldest
    [min n available] bytes; end of file when the pipe is empty and no
    write end is open; blocks ([None]) when it is empty and a writer
    exists; [-1] (EBADF) on a descriptor that is not open. *)
Definition sys_read (k : kernel) (fd : Z) (n : nat) : option (kernel * read_result) :=
  if decide (fd ∈ k_fds k) then
    match k_data k with
    | [] => if decide (k_writers k = 0) then Some (k, REof) else None
    | _ => Some (mkKernel (k_fifo k) (k_writers k) (drop n (k_data k)) (k_fds k),
                 RData (take n (k_data k)))
    end
  else Some (k, RErr).

(** The descriptor table without the entry [fd] (its first occurrence). *)
Fixpoint remove_fd (fd : Z) (l : list Z) : list Z :=
  match l with
  | [] => []
  | x :: l' => if decide (x = fd) then l' else x :: remove_fd fd l'
  end.

(** [close(fd)]: [-1] (EBADF) when [fd] is not open. *)
Definition sys_close (k : kernel) (fd : Z) : kernel * Z :=
  if decide (fd ∈ k_fds k) then
    (mkKernel (k_fifo k) (k_writers k) (k_data k) (remove_fd fd (k_fds k)), 0%Z)
  else (k, (-1)%Z).

(** ** The clients' side of the FIFO *)

(** [open(SERVER_PIPE_NAME, O_WRONLY)] of a client. *)
Definition writer_open (k : kernel) : option kernel :=
  if k_fifo k then Some (mkKernel true (S (k_writers k)) (k_data k) (k_fds k)) else None.

(** [write(serverFd, buf, len)] of a client with a read end open: the bytes
    are appended in one piece (a write of at most [PIPE_BUF] bytes is atomic). *)
Definition writer_write (k : kernel) (bs : list byte) : option kernel :=
  if decide (k_writers k <> 0 /\ k_fds k <> [] /\ length bs <= PIPE_BUF)
  then Some (mkKernel (k_fifo k) (k_writers k) (k_data k ++ bs) (k_fds k))
  else None.

(** [close(serverFd)] of a client (or its exit). *)
Definition writer_close (k : kernel) : option kernel :=
  match k_writers k with
  | O => None
  | S w => Some (mkKernel (k_fifo k) w (k_data k) (k_fds k))
  end.

(** ** Lemmas *)

(** Reading consumes the oldest bytes: what is returned followed by what
    remains is what was there, at most [n] bytes and (for [n > 0]) at
    least one; nothing else of the kernel changes. *)
Lemma sys_read_data k fd n k' bs :
  sys_read k fd n = Some (k', RData bs) ->
  bs ++ k_data k' = k_data k /\ length bs <= n /\ (0 < n -> bs <> [])
  /\ fd ∈ k_fds k /\ k_fds k' = k_fds k /\ k_writers k' = k_writers k /\ k_fifo k' = k_fifo k.
Proof.
  unfold sys_read. case_decide; [|congruence].
  destruct (k_data k) as [|b d] eqn:E; [case_decide; congruence|].
  intros [= <- <-]; simpl. rewrite take_drop, length_take.
  repeat split; try done; [lia|]. intros Hn. destruct n; [lia|done].
Qed.

End Pipe.
