(* ===== verification/Mutex.v ===== *)
(** * The pthread mutex [clientsMutex]

    [src/server.c] line 19 declares [clientsMutex] with
    [PTHREAD_MUTEX_INITIALIZER], a mutex of the default type.  POSIX leaves
    undefined an unlock by a thread that does not hold it, which the worker
    performs at line 42.  The interface [MutexSem] states what the server's
    proofs need of [pthread_mutex_unlock]; two implementations discharge it:
    glibc's behaviour for the default (normal) type, which releases the
    mutex whoever holds it, and the error-checking type, which refuses
    (EPERM) and leaves the mutex as it is. *)

From S2P Require Import Prelude.

Module Mutex.

(** Thread identifiers: [0] is the main thread, [S i] the [i]-th worker. *)
Definition tid := nat.

(** The state of the mutex: its owner while it is locked. *)
Definition mutex := option tid.

(** [pthread_mutex_lock(&clientsMutex)] by [t]: takes a free mutex; blocks
    ([None]) on a locked one. *)
Definition lock (m : mutex) (t : tid) : option mutex :=
  match m with None => Some (Some t) | Some _ => None end.

(** The interface: an unlock by the owner frees the mutex, and an unlock
    never hands the mutex to another thread. *)
Class MutexSem := {
  unlock : mutex -> tid -> mutex;
  unlock_owner t : unlock (Some t) t = None;
  unlock_no_handover m t t' : unlock m t = Some t' -> m = Some t'
}.

(** The stronger contract of an error-checking mutex: an unlock by a
    thread that does not own it changes nothing. *)
Class CheckedMutex (MS : MutexSem) :=
  unlock_not_owner : forall m t, m <> Some t -> unlock m t = m.

(** glibc, [PTHREAD_MUTEX_NORMAL]: unlock clears the lock word without
    looking at the owner. *)
Definition unlock_normal (m : mutex) (t : tid) : mutex := None.

Definition normal_mutex : MutexSem.
Proof. refine {| unlock := unlock_normal |}; by intros. Defined.

(** [PTHREAD_MUTEX_ERRORCHECK]: unlock by a non-owner fails with EPERM. *)
Definition unlock_errorcheck (m : mutex) (t : tid) : mutex :=
  if decide (m = Some t) then None else m.

Definition errorcheck_mutex : MutexSem.
Proof.
  refine {| unlock := unlock_errorcheck |}.
  - intros t. unfold unlock_errorcheck. by rewrite decide_True.
  - intros m t t'. unfold unlock_errorcheck. case_decide; congruence.
Defined.

#[export] Instance errorcheck_checked : CheckedMutex errorcheck_mutex.
Proof. intros m t Hm. simpl. unfold unlock_errorcheck. by rewrite decide_False. Qed.

Lemma lock_some m t m' : lock m t = Some m' <-> m = None /\ m' = Some t.
Proof. destruct m; simpl; split; intros; destruct_and?; simplify_eq; done. Qed.

End Mutex.
