(* ===== verification/Server.v ===== *)
(** * The server process of [src/server.c] as an interleaving of threads

    The state [sys] holds the globals of [server.c] (lines 19-21), the
    locals of [main] that outlive a statement ([clientFd], whose address
    every worker receives, and [serverFd]), one [worker] record per thread
    created at line 103, the kernel objects of [Pipe], and the log of what
    the process writes to stdout and stderr together with the undefined
    behaviours it executes.  Each thread has a program counter at the
    granularity of the statements of the source: [connectedClientsCount++]
    is a load ([*IncLoad]) and a store ([*IncStore]) of a register, as the
    compiled code does, so that a race on the counter is visible.  A label
    chooses which thread runs next (and whether a system call of the main
    thread fails); [step] is the transition function, parametric in the
    [MutexSem] semantics of [pthread_mutex_unlock]. *)

From S2P Require Import Prelude CString Pipe Mutex.

Module Server.
Import CString Pipe Mutex.

(** [#define MAX_CLIENTS 10] *)
Definition MAX_CLIENTS : Z := 10.
(** [char buffer[256]] of [ClientHandler] *)
Definition BUFFER_SIZE : nat := 256.
Definition EXIT_FAILURE : Z := 1.

(** ** Program counters *)

(** [main]: the set-up (lines 73-92), the loop (95-116), the shut-down
    after the loop (118-124); [MExited c] is the end of the process with
    status [c]. *)
Inductive mpc :=
| MUnlink | MMkfifo | MOpenServer | MPrintInit
| MOpen | MLock1 | MCheckCap | MIncLoad | MIncStore | MCreate | MCloseRej | MUnlock1
| MLock2 | MCheckExit | MUnlockBrk | MUnlock2
| MLockEnd | MSetExit | MUnlockEnd | MCloseSrv | MReturn
| MExited (code : Z).

(** [ClientHandler] (lines 32-69). *)
Inductive wpc :=
| WDeref | WLock1 | WIncLoad | WIncStore | WUnlock1 | WUnlock2
| WRead | WPrint
| WLockDec | WDecLoad | WDecStore | WUnlockDec
| WLockExit | WCheckExit | WUnlockBrk | WUnlock3
| WClose | WExit.

#[export] Instance mpc_eq_dec : EqDecision mpc.
Proof. solve_decision. Defined.
#[export] Instance wpc_eq_dec : EqDecision wpc.
Proof. solve_decision. Defined.

(** A worker thread: its program counter, its local [clientFd], the
    register of its [connectedClientsCount++]/[--], and its [buffer]. *)
Record worker := mkWorker {
  w_pc : wpc;
  w_fd : Z;
  w_reg : Z;
  w_buf : cbuf
}.

(** The thread [pthread_create] starts: [buffer] not yet written. *)
Definition new_worker : worker := mkWorker WDeref (-1) 0 (uninit BUFFER_SIZE).

(** ** Observable events *)

Inductive ub :=
| UBUnlockNotOwner    (** [pthread_mutex_unlock] of a mutex the thread does not hold *)
| UBPrintUninit       (** [printf("%s")] reads an uninitialised cell *)
| UBPrintOverrun.     (** [printf("%s")] reads past the end of [buffer] *)

Inductive event :=
| EvInit                           (** "Server initialized" on stdout *)
| EvPrint (t : tid) (s : list byte) (** [printf("%s\n", buffer)] by thread [t] *)
| EvPerror                         (** a [perror] diagnostic before [exit] *)
| EvCreateFailed                   (** [pthread_create] returned an error (ignored) *)
| EvUB (t : tid) (u : ub).

#[export] Instance ub_eq_dec : EqDecision ub.
Proof. solve_decision. Defined.
#[export] Instance event_eq_dec : EqDecision event.
Proof. solve_decision. Defined.

(** ** The state of the process *)

Record sys := mkSys {
  s_k : kernel;            (** the FIFO and the descriptor table *)
  s_count : Z;             (** [connectedClientsCount] *)
  s_exit : Z;              (** [exitFlag] *)
  s_mutex : mutex;         (** [clientsMutex] *)
  s_main : mpc;
  s_clientFd : Z;          (** [main]'s [clientFd], shared through [&clientFd]: the
                               variable of each loop iteration lives in the same stack
                               slot, which the compiled code reuses and the model
                               follows *)
  s_serverFd : Z;
  s_mreg : Z;              (** [main]'s register for [connectedClientsCount++] *)
  s_workers : list worker; (** worker [i] is thread [S i] *)
  s_log : list event
}.

Definition set_k k s := mkSys k (s_count s) (s_exit s) (s_mutex s) (s_main s) (s_clientFd s) (s_serverFd s) (s_mreg s) (s_workers s) (s_log s).
Definition set_count c s := mkSys (s_k s) c (s_exit s) (s_mutex s) (s_main s) (s_clientFd s) (s_serverFd s) (s_mreg s) (s_workers s) (s_log s).
Definition set_exit e s := mkSys (s_k s) (s_count s) e (s_mutex s) (s_main s) (s_clientFd s) (s_serverFd s) (s_mreg s) (s_workers s) (s_log s).
Definition set_mutex m s := mkSys (s_k s) (s_count s) (s_exit s) m (s_main s) (s_clientFd s) (s_serverFd s) (s_mreg s) (s_workers s) (s_log s).
Definition set_main pc s := mkSys (s_k s) (s_count s) (s_exit s) (s_mutex s) pc (s_clientFd s) (s_serverFd s) (s_mreg s) (s_workers s) (s_log s).
Definition set_clientFd fd s := mkSys (s_k s) (s_count s) (s_exit s) (s_mutex s) (s_main s) fd (s_serverFd s) (s_mreg s) (s_workers s) (s_log s).
Definition set_serverFd fd s := mkSys (s_k s) (s_count s) (s_exit s) (s_mutex s) (s_main s) (s_clientFd s) fd (s_mreg s) (s_workers s) (s_log s).
Definition set_mreg r s := mkSys (s_k s) (s_count s) (s_exit s) (s_mutex s) (s_main s) (s_clientFd s) (s_serverFd s) r (s_workers s) (s_log s).
Definition set_workers ws s := mkSys (s_k s) (s_count s) (s_exit s) (s_mutex s) (s_main s) (s_clientFd s) (s_serverFd s) (s_mreg s) ws (s_log s).
Definition emit_all evs s := mkSys (s_k s) (s_count s) (s_exit s) (s_mutex s) (s_main s) (s_clientFd s) (s_serverFd s) (s_mreg s) (s_workers s) (s_log s ++ evs).
Definition emit ev s := emit_all [ev] s.

Definition set_worker (i : nat) (w : worker) (s : sys) : sys := set_workers (<[i:=w]> (s_workers s)) s.

Definition set_wpc (pc : wpc) (w : worker) : worker := mkWorker pc (w_fd w) (w_reg w) (w_buf w).
Definition set_wfd (fd : Z) (w : worker) : worker := mkWorker (w_pc w) fd (w_reg w) (w_buf w).
Definition set_wreg (r : Z) (w : worker) : worker := mkWorker (w_pc w) (w_fd w) r (w_buf w).
Definition set_wbuf (b : cbuf) (w : worker) : worker := mkWorker (w_pc w) (w_fd w) (w_reg w) b.

(** The process before [main] runs: no thread but [main], the counter and
    the flag at their initialisers, a FIFO that may be a stale one. *)
Definition init (stale : bool) : sys :=
  mkSys (mkKernel stale 0 [] []) 0 0 None MUnlink (-1) (-1) 0 [] [].

(** ** Transitions *)

Section Step.
Context {MS : MutexSem}.

(** [pthread_mutex_lock(&clientsMutex)] by [t], then [k]; blocked while
    another thread holds the mutex. *)
Definition acquire (t : tid) (s : sys) (k : sys -> sys) : option sys :=
  match lock (s_mutex s) t with
  | Some m => Some (k (set_mutex m s))
  | None => None
  end.

(** [pthread_mutex_unlock(&clientsMutex)] by [t]: an unlock of a mutex [t]
    does not hold is recorded as undefined behaviour. *)
Definition release (t : tid) (s : sys) : sys :=
  set_mutex (unlock (s_mutex s) t)
    (emit_all (if decide (s_mutex s = Some t) then [] else [EvUB t UBUnlockNotOwner]) s).

(** One statement of [main]; [ok = false] makes the system call of the
    statement fail. *)
Definition main_step (ok : bool) (s : sys) : option sys :=
  match s_main s with
  | MUnlink =>
      let '(k, r) := sys_unlink (s_k s) ok in
      match r with
      | UnlinkError => Some (set_main (MExited EXIT_FAILURE) (emit EvPerror s))
      | _ => Some (set_main MMkfifo (set_k k s))
      end
  | MMkfifo =>
      match sys_mkfifo (s_k s) ok with
      | Some k => Some (set_main MOpenServer (set_k k s))
      | None => Some (set_main (MExited EXIT_FAILURE) (emit EvPerror s))
      end
  | MOpenServer =>
      match sys_open_rd (s_k s) ok with
      | None => None
      | Some (k, fd) =>
          if decide (fd = -1)%Z then Some (set_main (MExited EXIT_FAILURE) (emit EvPerror s))
          else Some (set_main MPrintInit (set_serverFd fd (set_k k s)))
      end
  | MPrintInit => Some (set_main MOpen (emit EvInit s))
  | MOpen =>
      match sys_open_rd (s_k s) ok with
      | None => None
      | Some (k, fd) => Some (set_main MLock1 (set_clientFd fd (set_k k s)))
      end
  | MLock1 => acquire 0 s (set_main MCheckCap)
  | MCheckCap =>
      Some (set_main (if decide (s_count s < MAX_CLIENTS)%Z then MIncLoad else MCloseRej) s)
  | MIncLoad => Some (set_main MIncStore (set_mreg (s_count s) s))
  | MIncStore => Some (set_main MCreate (set_count (s_mreg s + 1) s))
  | MCreate =>
      if ok then Some (set_main MUnlock1 (set_workers (s_workers s ++ [new_worker]) s))
      else Some (set_main MUnlock1 (emit EvCreateFailed s))
  | MCloseRej => Some (set_main MUnlock1 (set_k (sys_close (s_k s) (s_clientFd s)).1 s))
  | MUnlock1 => Some (set_main MLock2 (release 0 s))
  | MLock2 => acquire 0 s (set_main MCheckExit)
  | MCheckExit =>
      Some (set_main (if decide (s_exit s = 0)%Z then MUnlock2 else MUnlockBrk) s)
  | MUnlockBrk => Some (set_main MLockEnd (release 0 s))
  | MUnlock2 => Some (set_main MOpen (release 0 s))
  | MLockEnd => acquire 0 s (set_main MSetExit)
  | MSetExit => Some (set_main MUnlockEnd (set_exit 1 s))
  | MUnlockEnd => Some (set_main MCloseSrv (release 0 s))
  | MCloseSrv => Some (set_main MReturn (set_k (sys_close (s_k s) (s_serverFd s)).1 s))
  | MReturn => Some (set_main (MExited 0) s)
  | MExited _ => None
  end.

(** The [printf("%s\n", buffer)] of line 47. *)
Definition print_event (t : tid) (b : cbuf) : event :=
  match read_cstr b with
  | CStr str => EvPrint t str
  | CStrUninit => EvUB t UBPrintUninit
  | CStrOverrun => EvUB t UBPrintOverrun
  end.

(** One statement of worker [i] (thread [S i]). *)
Definition worker_step (i : nat) (s : sys) : option sys :=
  match s_workers s !! i with
  | None => None
  | Some w =>
      let t := S i in
      let go pc s' := set_worker i (set_wpc pc w) s' in
      match w_pc w with
      | WDeref => Some (set_worker i (set_wpc WLock1 (set_wfd (s_clientFd s) w)) s)
      | WLock1 => acquire t s (go WIncLoad)
      | WIncLoad => Some (set_worker i (set_wpc WIncStore (set_wreg (s_count s) w)) s)
      | WIncStore => Some (go WUnlock1 (set_count (w_reg w + 1) s))
      | WUnlock1 => Some (go WUnlock2 (release t s))
      | WUnlock2 => Some (go WRead (release t s))
      | WRead =>
          match sys_read (s_k s) (w_fd w) BUFFER_SIZE with
          | None => None
          | Some (k, RData bs) =>
              Some (set_worker i (set_wpc WPrint (set_wbuf (buf_store bs (w_buf w)) w)) (set_k k s))
          | Some (k, REof) => Some (go WLockDec (set_k k s))
          | Some (k, RErr) => Some (go WLockExit (set_k k s))
          end
      | WPrint => Some (go WLockExit (emit (print_event t (w_buf w)) s))
      | WLockDec => acquire t s (go WDecLoad)
      | WDecLoad => Some (set_worker i (set_wpc WDecStore (set_wreg (s_count s) w)) s)
      | WDecStore => Some (go WUnlockDec (set_count (w_reg w - 1) s))
      | WUnlockDec => Some (go WClose (release t s))
      | WLockExit => acquire t s (go WCheckExit)
      | WCheckExit => Some (go (if decide (s_exit s = 0)%Z then WUnlock3 else WUnlockBrk) s)
      | WUnlockBrk => Some (go WClose (release t s))
      | WUnlock3 => Some (go WRead (release t s))
      | WClose => Some (go WExit (set_k (sys_close (s_k s) (w_fd w)).1 s))
      | WExit => None
      end
  end.

(** What the clients do to the FIFO. *)
Inductive client_act := COpen | CWrite (bs : list byte) | CClose.

Definition client_step (a : client_act) (s : sys) : option sys :=
  match a with
  | COpen => (fun k => set_k k s) <$> writer_open (s_k s)
  | CWrite bs => (fun k => set_k k s) <$> writer_write (s_k s) bs
  | CClose => (fun k => set_k k s) <$> writer_close (s_k s)
  end.

Inductive label :=
| LMain (ok : bool)
| LWorker (i : nat)
| LClient (a : client_act).

Definition exited (s : sys) : bool := match s_main s with MExited _ => true | _ => false end.

(** Once the process has exited no thread runs. *)
Definition step (s : sys) (l : label) : option sys :=
  if exited s then None
  else match l with
       | LMain ok => main_step ok s
       | LWorker i => worker_step i s
       | LClient a => client_step a s
       end.

(** The states the process can reach from its start. *)
Definition reachable (s : sys) : Prop := exists stale, star (Step step) (init stale) s.

End Step.

Arguments reachable MS s : clear implicits.

(** Computes the setters and projections of [sys] and [worker]. *)
Ltac simpl_sys :=
  cbn [s_k s_count s_exit s_mutex s_main s_clientFd s_serverFd s_mreg s_workers s_log
       set_k set_count set_exit set_mutex set_main set_clientFd set_serverFd set_mreg
       set_workers set_worker emit emit_all w_pc w_fd w_reg w_buf
       set_wpc set_wfd set_wreg set_wbuf] in *.

End Server.
