(* ===== verification/Scenarios.v ===== *)
(** * Concrete schedules of the server

    Interleavings of [main], the workers and the clients, written as label
    lists for [Server.step].  They drive the witnesses of the theorems and
    the reachable counterexamples: each is run by [vm_compute]. *)

From S2P Require Import Prelude CString Pipe Mutex Server.

Module Scenarios.
Import CString Pipe Mutex Server.

(** [unlink], [mkfifo], a first client opens the FIFO, [open] of
    [serverFd], "Server initialized". *)
Definition setup : list label :=
  [LMain true; LMain true; LClient COpen; LMain true; LMain true].

(** One iteration of the accept loop that admits a connection (lines
    96-115 through the [if] branch). *)
Definition admit_conn : list label := repeat (LMain true) 10.

(** One iteration of the accept loop that rejects a connection (lines
    96-115 through the [else] branch). *)
Definition reject : list label := repeat (LMain true) 8.

(** A worker runs lines 33-39: it takes its descriptor and counts itself. *)
Definition worker_start (i : nat) : list label := repeat (LWorker i) 5.

(** A worker runs from line 42 to its [read] and blocks or returns. *)
Definition worker_to_read (i : nat) : list label := repeat (LWorker i) 2.

(** Worker [i], after its [read] returned 0 (line 45), finishes: the
    decrement (50-52) and [close] (67). *)
Definition worker_finish (i : nat) : list label := repeat (LWorker i) 5.

(** The state a schedule leads to from a start without a stale FIFO. *)
Definition after (MS : MutexSem) (ls : list label) : option sys :=
  run step (init false) ls.

Definition admit_n (n : nat) : list label := mjoin (repeat admit_conn n).

Definition start_all (n : nat) : list label := mjoin (worker_start <$> seq 0 n).

(** Line 42 reached by the first worker. *)
Definition sched_line42 : list label := setup ++ admit_conn ++ worker_start 0.

(** Ten connections admitted, then every worker counts itself again. *)
Definition sched_count20 : list label := setup ++ admit_n 10 ++ start_all 10.

(** Two buffered messages read by one [read]. *)
Definition sched_coalesce (m1 m2 : list byte) : list label :=
  setup ++ admit_conn ++ worker_start 0 ++ [LClient (CWrite (wire m1)); LClient (CWrite (wire m2))]
  ++ worker_to_read 0 ++ [LWorker 0].

(** One client served from connection to disconnection by worker [i]; a
    next client then opens the FIFO. *)
Definition served (i : nat) : list label :=
  admit_conn ++ worker_start i ++ [LClient CClose] ++ worker_to_read i ++ worker_finish i ++
  [LClient COpen].

(** Ten clients served one after the other: the eleventh is refused. *)
Definition sched_lifetime : list label :=
  setup ++ mjoin (served <$> seq 0 10) ++ reject.

(** Ten clients served, and the accept loop at its capacity test for the
    eleventh. *)
Definition sched_quota : list label :=
  setup ++ mjoin (served <$> seq 0 10) ++ [LMain true; LMain true].

(** Two connections admitted; the first worker at line 42, [main] inside
    its critical section for a third connection, the second worker at its
    [pthread_mutex_lock] of line 36. *)
Definition sched_race : list label :=
  setup ++ admit_conn ++ admit_conn ++ worker_start 0 ++ repeat (LMain true) 4 ++ [LWorker 1].

(** The states the schedules reach (the start state if one is blocked). *)
Definition state_of (MS : MutexSem) (ls : list label) : sys := default (init false) (after MS ls).

Definition st_line42 : sys := state_of normal_mutex sched_line42.
Definition st_count20 : sys := state_of errorcheck_mutex sched_count20.
Definition st_quota : sys := state_of errorcheck_mutex sched_quota.
Definition st_lifetime : sys := state_of errorcheck_mutex sched_lifetime.
Definition st_race : sys := state_of normal_mutex sched_race.

Lemma after_reachable MS ls s : after MS ls = Some s -> reachable MS s.
Proof. intros H. exists false. by eapply run_star. Qed.

(** A schedule that runs to its end reaches [state_of]. *)
Lemma state_of_reachable MS ls :
  is_Some (after MS ls) -> reachable MS (state_of MS ls).
Proof. intros [s Hs]. unfold state_of. rewrite Hs. by eapply after_reachable. Qed.

(** Close [reachable MS (state_of MS ls)] by running the schedule. *)
Ltac reach := apply state_of_reachable; vm_compute; eauto.

End Scenarios.
