(* ===== verification/ServerInv.v ===== *)
(** * Invariants of the server that hold whatever [pthread_mutex_unlock] does

    Everything here is proved against the [MutexSem] interface only, so it
    holds for glibc's default mutex and for an error-checking one alike:
    - nothing ever sets [exitFlag]: the code after the accept loop and the
      shut-down branch of [ClientHandler] are dead (lines 60-62, 111-124);
    - the owner of [clientsMutex] is always inside one of its critical
      sections;
    - consequently every worker that executes line 42 unlocks a mutex it
      does not hold, which is undefined behaviour for the default mutex. *)

From S2P Require Import Prelude CString Pipe Mutex Server Scenarios.

Module ServerInv.
Import CString Pipe Mutex Server Scenarios.

(** Statements of [main] after the accept loop (lines 112-124). *)
Definition after_loop (pc : mpc) : bool :=
  match pc with
  | MUnlockBrk | MLockEnd | MSetExit | MUnlockEnd | MCloseSrv | MReturn | MExited Z0 => true
  | _ => false
  end.

(** Statements [main] executes while holding [clientsMutex]. *)
Definition main_holds (pc : mpc) : bool :=
  match pc with
  | MCheckCap | MIncLoad | MIncStore | MCreate | MCloseRej | MUnlock1
  | MCheckExit | MUnlockBrk | MUnlock2 | MSetExit | MUnlockEnd => true
  | _ => false
  end.

(** Statements of [ClientHandler] executed while holding [clientsMutex]. *)
Definition worker_holds (pc : wpc) : bool :=
  match pc with
  | WIncLoad | WIncStore | WUnlock1 | WDecLoad | WDecStore | WUnlockDec
  | WCheckExit | WUnlockBrk | WUnlock3 => true
  | _ => false
  end.

(** Thread [t] is inside a critical section, given [main]'s program
    counter and the workers. *)
Definition holds_in (m : mpc) (ws : list worker) (t : tid) : bool :=
  match t with
  | O => main_holds m
  | S i => match ws !! i with Some w => worker_holds (w_pc w) | None => false end
  end.

Definition holds (s : sys) (t : tid) : bool := holds_in (s_main s) (s_workers s) t.

(** [exitFlag] is still 0, [main] is still in its loop, no worker is on
    the shut-down branch. *)
Definition shutdown_dead (s : sys) : Prop :=
  s_exit s = 0%Z /\ after_loop (s_main s) = false /\
  Forall (fun w => w_pc w <> WUnlockBrk) (s_workers s).

(** Statements of [main] before the accept loop, and the end of the process. *)
Definition in_setup (pc : mpc) : bool :=
  match pc with MUnlink | MMkfifo | MOpenServer | MPrintInit | MExited _ => true | _ => false end.

(** No worker exists before the loop, nor after the process ended. *)
Definition no_worker_outside_loop (s : sys) : Prop :=
  in_setup (s_main s) = true -> s_workers s = [].

Definition owner_in_cs (s : sys) : Prop :=
  forall t, s_mutex s = Some t -> holds s t = true.

(** Every worker's [buffer] has its [BUFFER_SIZE] cells. *)
Definition bufs_sized (s : sys) : Prop :=
  Forall (fun w => length (w_buf w) = BUFFER_SIZE) (s_workers s).

(** ** Case analysis on a transition *)

(** Split the [match]es and [if]s of a transition hypothesis [H]. *)
Ltac split_step H :=
  repeat (match type of H with
          | context [match ?x with _ => _ end] =>
              lazymatch x with
              | context [match _ with _ => _ end] => fail
              | _ => revert H; destruct x eqn:?; intros H
              end
          end; simplify_eq/=).

Section Generic.
Context {MS : MutexSem}.

Lemma reachable_ind (P : sys -> Prop) :
  (forall stale, P (init stale)) ->
  (forall s l s', P s -> step s l = Some s' -> P s') ->
  forall s, reachable MS s -> P s.
Proof.
  intros Hinit Hstep s [stale Hs].
  eapply (star_invariant _ P); [|exact Hs|apply Hinit].
  intros a b Ha [l Hl]. eauto.
Qed.

Lemma reachable_step s l s' : reachable MS s -> step s l = Some s' -> reachable MS s'.
Proof. intros [stale Hs] Hl. exists stale. eapply star_right; [exact Hs|by exists l]. Qed.

(** Rule induction where the step case may use the invariants already
    proved of reachable states. *)
Lemma reachable_ind_strong (P : sys -> Prop) :
  (forall stale, P (init stale)) ->
  (forall s l s', reachable MS s -> P s -> step s l = Some s' -> P s') ->
  forall s, reachable MS s -> P s.
Proof.
  intros Hinit Hstep s Hr.
  enough (reachable MS s /\ P s) by tauto.
  revert s Hr. apply reachable_ind.
  - intros stale. split; [exists stale; apply star_refl|apply Hinit].
  - intros s l s' [Hr Hp] Hl. split; [by eapply reachable_step|by eapply Hstep].
Qed.

Lemma step_cases s l s' :
  step s l = Some s' ->
  exited s = false /\
  ((exists ok, main_step ok s = Some s') \/ (exists i, worker_step i s = Some s') \/
   (exists a, client_step a s = Some s')).
Proof. unfold step. destruct (exited s); [done|]. destruct l; eauto 6. Qed.

Lemma worker_step_some i s s' :
  worker_step i s = Some s' -> exists w, s_workers s !! i = Some w.
Proof. unfold worker_step. destruct (s_workers s !! i); eauto. done. Qed.

(** ** [exitFlag] is never set *)

Lemma main_step_shutdown_dead ok s s' :
  main_step ok s = Some s' -> shutdown_dead s -> shutdown_dead s'.
Proof.
  intros H (Hx & Ha & Hw). unfold main_step, acquire, release in H.
  split_step H; unfold shutdown_dead; simplify_eq/=; repeat case_decide;
    rewrite ?Forall_app; repeat split; try done; try congruence; try (by constructor).
Qed.

Lemma worker_step_shutdown_dead i s s' :
  worker_step i s = Some s' -> shutdown_dead s -> shutdown_dead s'.
Proof.
  intros H (Hx & Ha & Hw). unfold worker_step, acquire, release in H.
  split_step H; unfold shutdown_dead; simplify_eq/=; repeat case_decide;
    repeat split; try done; try congruence; apply Forall_insert; done.
Qed.

(** The clients only act on the kernel objects. *)
Lemma client_step_kernel a s s' : client_step a s = Some s' -> exists k, s' = set_k k s.
Proof. intros H. destruct a; simpl in H; apply fmap_Some in H as (k & _ & ->); eauto. Qed.

Lemma client_step_shutdown_dead a s s' :
  client_step a s = Some s' -> shutdown_dead s -> shutdown_dead s'.
Proof. intros H Hs. apply client_step_kernel in H as [k ->]. exact Hs. Qed.

Lemma shutdown_dead_reachable s : reachable MS s -> shutdown_dead s.
Proof.
  apply reachable_ind; [intros; repeat split; constructor|].
  intros s0 l s1 Hs Hl. apply step_cases in Hl as (_ & [[ok H]|[[i H]|[a H]]]);
    eauto using main_step_shutdown_dead, worker_step_shutdown_dead, client_step_shutdown_dead.
Qed.

(** ** The owner of [clientsMutex] is in a critical section *)

Lemma holds_in_insert m ws i w t :
  holds_in m (<[i:=w]> ws) t =
  if decide (t = S i /\ i < length ws) then worker_holds (w_pc w) else holds_in m ws t.
Proof.
  destruct t as [|j]; simpl; [repeat case_decide; naive_solver|].
  rewrite list_lookup_insert. repeat case_decide; naive_solver.
Qed.

Lemma holds_in_spawn m ws t : holds_in m (ws ++ [new_worker]) t = holds_in m ws t.
Proof.
  destruct t as [|j]; simpl; [done|].
  destruct (ws !! j) eqn:E.
  - by rewrite (lookup_app_l_Some _ _ _ _ E).
  - rewrite lookup_app_r by (by apply lookup_ge_None).
    by destruct (j - length ws) as [|[]].
Qed.

(** What is left of the owner after an unlock by [u] is another thread. *)
Lemma unlock_some_other m u t :
  unlock m u = Some t -> m = Some t /\ t <> u.
Proof.
  intros Ht. pose proof (unlock_no_handover _ _ _ Ht) as E. split; [done|].
  intros ->. subst m. by rewrite unlock_owner in Ht.
Qed.

(** Close a goal [owner_in_cs s'] after [split_step]: the owner is the
    thread that just locked, a thread that kept the mutex through another
    thread's unlock, or an untouched owner. *)
Ltac owner_tac Hs :=
  intros t Ht; unfold holds in *; simpl in *;
  try match goal with E : ?l !! ?i = Some _ |- _ => pose proof (lookup_lt_Some _ _ _ E) end;
  rewrite ?holds_in_spawn, ?holds_in_insert;
  try (apply unlock_some_other in Ht as [Ht ?]);
  simplify_eq/=; try done;
  try specialize (Hs t Ht); repeat case_decide; destruct_and?; simplify_eq/=; try done;
  try (destruct t; simpl in *); simplify_eq/=; try done; try congruence;
  repeat match goal with E : s_main _ = _ |- _ => rewrite E in *; clear E end;
  repeat match goal with E : ?l !! ?i = Some _ |- _ => rewrite E in *; clear E end;
  repeat match goal with E : w_pc _ = _ |- _ => rewrite E in *; clear E end; try done;
  exfalso; naive_solver.

Lemma main_step_owner_in_cs ok s s' :
  main_step ok s = Some s' -> owner_in_cs s -> owner_in_cs s'.
Proof.
  intros H Hs. unfold main_step, acquire, release, lock in H.
  split_step H; owner_tac Hs.
Qed.

Lemma worker_step_owner_in_cs i s s' :
  worker_step i s = Some s' -> owner_in_cs s -> owner_in_cs s'.
Proof.
  intros H Hs. unfold worker_step, acquire, release, lock in H.
  split_step H; owner_tac Hs.
Qed.

Lemma client_step_owner_in_cs a s s' :
  client_step a s = Some s' -> owner_in_cs s -> owner_in_cs s'.
Proof. intros H Hs. apply client_step_kernel in H as [k ->]. exact Hs. Qed.

Lemma owner_in_cs_reachable s : reachable MS s -> owner_in_cs s.
Proof.
  apply reachable_ind; [by intros ? ? ?|].
  intros s0 l s1 Hs Hl. apply step_cases in Hl as (_ & [[ok H]|[[i H]|[a H]]]);
    eauto using main_step_owner_in_cs, worker_step_owner_in_cs, client_step_owner_in_cs.
Qed.

(** ** Workers only exist while [main] is in its loop *)

Lemma main_step_no_worker_outside_loop ok s s' :
  main_step ok s = Some s' -> shutdown_dead s -> no_worker_outside_loop s ->
  no_worker_outside_loop s'.
Proof.
  intros H (_ & Ha & _) Hs. unfold no_worker_outside_loop in *.
  unfold main_step, acquire, release, lock in H.
  split_step H;
    repeat match goal with E : s_main _ = _ |- _ => rewrite E in *; clear E end;
    simpl in *; try done; by case_decide.
Qed.

Lemma worker_step_no_worker_outside_loop i s s' :
  worker_step i s = Some s' -> no_worker_outside_loop s -> no_worker_outside_loop s'.
Proof.
  intros H Hs Hm. pose proof (worker_step_some _ _ _ H) as [w Hw].
  unfold worker_step, acquire, release, lock in H. rewrite Hw in H.
  rewrite Hs in Hw; [done|]. split_step H; done.
Qed.

Lemma no_worker_outside_loop_reachable s : reachable MS s -> no_worker_outside_loop s.
Proof.
  intros Hr. pattern s. revert s Hr.
  enough (forall s, reachable MS s -> shutdown_dead s /\ no_worker_outside_loop s) by naive_solver.
  apply reachable_ind; [intros; split; [repeat split; constructor|done]|].
  intros s0 l s1 [Hd Hs] Hl. pose proof Hl as Hl'. apply step_cases in Hl as (_ & [[ok H]|[[i H]|[a H]]]).
  - split; eauto using main_step_shutdown_dead, main_step_no_worker_outside_loop.
  - split; eauto using worker_step_shutdown_dead, worker_step_no_worker_outside_loop.
  - apply client_step_kernel in H as [k ->]. done.
Qed.

(** A worker exists only while the process runs. *)
Lemma worker_not_exited s i w :
  reachable MS s -> s_workers s !! i = Some w -> exited s = false.
Proof.
  intros Hr Hw. pose proof (no_worker_outside_loop_reachable s Hr) as Hn.
  unfold no_worker_outside_loop in Hn.
  unfold exited. destruct (s_main s) eqn:E; try done. rewrite Hn in Hw; [done|by rewrite ?E].
Qed.

(** ** Every [buffer] keeps its size *)

Lemma main_step_bufs_sized ok s s' :
  main_step ok s = Some s' -> bufs_sized s -> bufs_sized s'.
Proof.
  intros H Hb. unfold main_step, acquire, release in H.
  split_step H; unfold bufs_sized in *; simpl; rewrite ?Forall_app; try done.
  split; [done|]. by repeat constructor.
Qed.

Lemma worker_step_bufs_sized i s s' :
  worker_step i s = Some s' -> bufs_sized s -> bufs_sized s'.
Proof.
  intros H Hb. pose proof (worker_step_some _ _ _ H) as [w Hw].
  pose proof (Forall_lookup_1 _ _ _ _ Hb Hw) as Hlen. simpl in Hlen.
  unfold worker_step, acquire, release in H. rewrite Hw in H.
  split_step H; unfold bufs_sized in *; simpl; apply Forall_insert; try done; simpl.
  rewrite length_buf_store; [done|].
  match goal with E : sys_read _ _ _ = Some (_, RData _) |- _ => apply sys_read_data in E end.
  unfold BUFFER_SIZE in *. lia.
Qed.

Lemma bufs_sized_reachable s : reachable MS s -> bufs_sized s.
Proof.
  apply reachable_ind; [by intros; constructor|].
  intros s0 l s1 Hs Hl. apply step_cases in Hl as (_ & [[ok H]|[[i H]|[a H]]]);
    eauto using main_step_bufs_sized, worker_step_bufs_sized.
  apply client_step_kernel in H as [k ->]. exact Hs.
Qed.

(** ** Properties *)

(** C4: nothing ever sets [exitFlag]: in every reachable state it is 0,
    [main] has not left its accept loop (the statements of lines 112-124,
    among them the [close(serverFd)] and the [return 0], are never
    executed), and no worker takes the shut-down branch of line 61. *)
Theorem exit_flag_never_set s :
  reachable MS s ->
  s_exit s = 0%Z /\ after_loop (s_main s) = false /\
  Forall (fun w => w_pc w <> WUnlockBrk) (s_workers s).
Proof. intros Hr. exact (shutdown_dead_reachable s Hr). Qed.

(** C5: every worker that reaches line 42 unlocks [clientsMutex] without
    holding it: the statement is never blocked and always records the
    undefined behaviour of an unlock by a non-owner. *)
Theorem unlock_line42_not_owner s i w :
  reachable MS s -> s_workers s !! i = Some w -> w_pc w = WUnlock2 ->
  holds s (S i) = false /\ s_mutex s <> Some (S i) /\
  exists s', step s (LWorker i) = Some s' /\
             s_log s' = s_log s ++ [EvUB (S i) UBUnlockNotOwner].
Proof.
  intros Hr Hw Hpc. pose proof (worker_not_exited s i w Hr Hw) as Hex.
  assert (s_mutex s <> Some (S i)) as Hm.
  { intros Hm. pose proof (owner_in_cs_reachable s Hr _ Hm) as Hh.
    unfold holds in Hh; simpl in Hh. by rewrite Hw, Hpc in Hh. }
  split; [unfold holds; simpl; by rewrite Hw, Hpc|]. split; [done|].
  eexists. split.
  - unfold step. rewrite Hex. simpl. unfold worker_step. rewrite Hw, Hpc. reflexivity.
  - simpl. by rewrite decide_False.
Qed.

Lemma step_worker s i : exited s = false -> step s (LWorker i) = worker_step i s.
Proof. intros H. unfold step. by rewrite H. Qed.

End Generic.

(** ** Running a worker symbolically *)

(** Compute the setters, the mutex operations and the tests that hold. *)
Ltac flat :=
  unfold set_worker, set_workers, set_k, set_mutex, emit, emit_all, set_wpc, set_wbuf,
    acquire, release, lock;
  cbn -[buf_store wire print_event insert lookup unlock decide];
  repeat (rewrite decide_True by done;
          cbn -[buf_store wire print_event insert lookup unlock decide]).

(** Open the state [s] and the worker [w] at index [i] into their fields,
    and record in [He] that every state with [main]'s program counter has
    not exited (from the hypothesis [exited s = false] in context). *)
Ltac open_worker s w i He :=
  let mn := fresh "mn" in let ws := fresh "ws" in
  destruct s as [[? ? ? ?] ? ? ? mn ? ? ? ws ?]; destruct w; simpl in *; subst;
  assert (He : forall s, s_main s = mn -> exited s = false) by (intros [] ?; simpl in *; by subst);
  assert (i < length ws) by (eapply lookup_lt_Some; eauto).

(** Execute the next statement of a worker whose state is known: [He]
    shows that the process has not exited, [Hwi] gives the worker. *)
Ltac wstep He Hwi :=
  match goal with |- context [step ?x (LWorker ?j)] =>
    rewrite (step_worker x j) by (apply He; reflexivity) end;
  unfold worker_step; flat;
  rewrite ?list_insert_insert_eq;
  first [rewrite list_lookup_insert_eq by done | rewrite Hwi]; flat.

(** C6: with glibc's default mutex, the unlock of line 42 breaks mutual
    exclusion: whenever a worker executes it while another thread [t] holds
    [clientsMutex], the mutex is freed with [t] still inside its critical
    section, and a worker waiting at its [pthread_mutex_lock] of line 36
    enters its own at once, so that two threads are in critical sections
    together. *)
Theorem line42_breaks_exclusion s i w t j wj :
  reachable normal_mutex s -> s_workers s !! i = Some w -> w_pc w = WUnlock2 ->
  s_mutex s = Some t -> s_workers s !! j = Some wj -> w_pc wj = WLock1 ->
  exists s' s'', step (MS := normal_mutex) s (LWorker i) = Some s' /\ s_mutex s' = None /\
    step (MS := normal_mutex) s' (LWorker j) = Some s'' /\
    holds s'' t = true /\ holds s'' (S j) = true /\ t <> S j.
Proof.
  intros Hr Hw Hpc Hm Hwj Hpcj.
  pose proof (worker_not_exited s i w Hr Hw) as Hex.
  pose proof (owner_in_cs_reachable s Hr t Hm) as Ht.
  assert (i <> j) by (intros ->; congruence).
  assert (i < length (s_workers s)) by (eapply lookup_lt_Some; eauto).
  assert (j < length (s_workers s)) by (eapply lookup_lt_Some; eauto).
  assert (t <> S i /\ t <> S j) as [Hti Htj]
    by (unfold holds in Ht; split; intros ->; simpl in Ht; by rewrite ?Hw, ?Hwj, ?Hpc, ?Hpcj in Ht).
  do 2 eexists. split; [rewrite step_worker by done; unfold worker_step; by rewrite Hw, Hpc|].
  split; [done|]. split.
  { rewrite step_worker by (unfold exited, release in *; by simpl).
    unfold worker_step, release. simpl_sys. rewrite list_lookup_insert_ne, Hwj, Hpcj by done. reflexivity. }
  unfold holds, acquire, release, lock in *. simpl_sys. rewrite !holds_in_insert, !length_insert.
  split_and!; try done; repeat case_decide; naive_solver.
Qed.

(** ** Witnesses *)

Lemma exit_flag_never_set_witness :
  reachable normal_mutex st_line42 /\ s_exit st_line42 = 0%Z.
Proof.
  assert (reachable normal_mutex st_line42) as Hr
    by (apply state_of_reachable; vm_compute; eauto).
  split; [exact Hr|]. exact (proj1 (exit_flag_never_set st_line42 Hr)).
Defined.

Lemma unlock_line42_not_owner_witness :
  holds st_line42 1 = false /\ s_mutex st_line42 <> Some 1 /\
  exists s', step (MS := normal_mutex) st_line42 (LWorker 0) = Some s' /\
             s_log s' = s_log st_line42 ++ [EvUB 1 UBUnlockNotOwner].
Proof.
  assert (reachable normal_mutex st_line42) as Hr
    by (apply state_of_reachable; vm_compute; eauto).
  apply (unlock_line42_not_owner st_line42 0
           (mkWorker WUnlock2 4 1 (uninit BUFFER_SIZE)) Hr); vm_compute; reflexivity.
Defined.

Lemma line42_breaks_exclusion_witness :
  exists s' s'', step (MS := normal_mutex) st_race (LWorker 0) = Some s' /\ s_mutex s' = None /\
    step (MS := normal_mutex) s' (LWorker 1) = Some s'' /\
    holds s'' 0 = true /\ holds s'' 2 = true /\ 0 <> 2.
Proof.
  assert (reachable normal_mutex st_race) as Hr
    by (apply state_of_reachable; vm_compute; eauto).
  apply (line42_breaks_exclusion st_race 0 (mkWorker WUnlock2 5 2 (uninit BUFFER_SIZE)) 0 1
           (mkWorker WLock1 6 0 (uninit BUFFER_SIZE)) Hr); vm_compute; reflexivity.
Defined.

End ServerInv.
