(* ===== verification/ServerCount.v ===== *)
(** * What [connectedClientsCount] counts

    Under a mutex that ignores unlocks by non-owners ([CheckedMutex]), the
    critical sections of [src/server.c] exclude each other, and the counter
    obeys an exact accounting: a worker adds 1 when [main] admits it (line
    100), 1 more when it starts (line 38), and takes 1 away only when its
    client disconnects (line 51).  A finished worker therefore still counts
    1, forever.  Consequences proved here:
    - the counter equals that accounting in every reachable state;
    - at most [MAX_CLIENTS] worker threads are ever created, over the whole
      life of the server: the counter never falls below the number of
      threads created, so after ten clients every connection is refused;
    - the counter stays within [0, 2 * MAX_CLIENTS], so [int] never
      overflows, but it exceeds [MAX_CLIENTS] (see [ServerTraces]). *)

From S2P Require Import Prelude CString Pipe Mutex Server Scenarios ServerInv.

Module ServerCount.
Import CString Pipe Mutex Server Scenarios ServerInv.

(** What a worker at a statement has added to the counter. *)
Definition contrib (pc : wpc) : nat :=
  match pc with
  | WDeref | WLock1 | WIncLoad | WIncStore => 1
  | WUnlockDec | WClose | WExit => 1
  | _ => 2
  end.

(** The increment [main] has stored for a thread not created yet. *)
Definition main_pending (pc : mpc) : nat := match pc with MCreate => 1 | _ => 0 end.

(** [main] between the capacity check and the creation of the thread. *)
Definition main_slot (pc : mpc) : nat :=
  match pc with MIncLoad | MIncStore | MCreate => 1 | _ => 0 end.

(** Increments whose [pthread_create] failed. *)
Fixpoint failed_creates (log : list event) : nat :=
  match log with
  | [] => 0
  | EvCreateFailed :: l => S (failed_creates l)
  | _ :: l => failed_creates l
  end.

Definition accounted (s : sys) : nat :=
  sum_list_with (fun w => contrib (w_pc w)) (s_workers s) + main_pending (s_main s)
  + failed_creates (s_log s).

(** Threads created, or attempted, so far. *)
Definition spawned (s : sys) : nat := length (s_workers s) + failed_creates (s_log s).

(** Only the owner of the mutex is in a critical section. *)
Definition mutual_exclusion (s : sys) : Prop :=
  forall t, holds s t = true -> s_mutex s = Some t.

(** A thread between the load and the store of [++]/[--] holds the value
    of the counter in its register. *)
Definition is_store (pc : wpc) : bool :=
  match pc with WIncStore | WDecStore => true | _ => false end.

Definition registers_fresh (s : sys) : Prop :=
  (s_main s = MIncStore -> s_mreg s = s_count s) /\
  (forall j w, s_workers s !! j = Some w -> is_store (w_pc w) = true -> w_reg w = s_count s).

Definition count_inv (s : sys) : Prop :=
  mutual_exclusion s /\ registers_fresh s /\ s_count s = Z.of_nat (accounted s) /\
  spawned s + main_slot (s_main s) <= Z.to_nat MAX_CLIENTS.

Lemma failed_creates_app l1 l2 :
  failed_creates (l1 ++ l2) = failed_creates l1 + failed_creates l2.
Proof. induction l1 as [|[] l1 IH]; simpl; lia. Qed.

Lemma failed_creates_print t b : failed_creates [print_event t b] = 0.
Proof. unfold print_event. by destruct (read_cstr b). Qed.

Lemma contrib_pos pc : contrib pc >= 1.
Proof. destruct pc; simpl; lia. Qed.

Lemma contrib_le pc : contrib pc <= 2.
Proof. destruct pc; simpl; lia. Qed.

(** Every thread created, or attempted, still counts at least once. *)
Lemma accounted_ge_spawned s : spawned s <= accounted s.
Proof.
  unfold spawned, accounted.
  pose proof (sum_list_with_ge_length (fun w => contrib (w_pc w)) (s_workers s)
    (fun w => contrib_pos (w_pc w))). lia.
Qed.

Lemma accounted_le s : accounted s <= 2 * (spawned s + main_slot (s_main s)).
Proof.
  unfold spawned, accounted.
  pose proof (sum_list_with_le (fun w => contrib (w_pc w)) (s_workers s) 2
    (fun w => contrib_le (w_pc w))).
  destruct (s_main s); simpl; lia.
Qed.

Section Checked.
Context {MS : MutexSem} `{!CheckedMutex MS}.

(** ** Mutual exclusion *)

Lemma main_step_mutual_exclusion ok s s' :
  main_step ok s = Some s' -> mutual_exclusion s -> mutual_exclusion s'.
Proof.
  intros H Hme. unfold main_step, acquire, release, lock in H.
  assert (main_holds (s_main s) = true -> s_mutex s = Some 0) as H0 by (intros Hh; by apply (Hme 0)).
  split_step H; intros t Ht; unfold holds in *; simpl_sys;
    rewrite ?holds_in_spawn in Ht;
    repeat match goal with E : s_main _ = _ |- _ => rewrite E in *; clear E end; simpl in *;
    rewrite ?H0, ?unlock_owner by done; try (by apply Hme);
    destruct t as [|j]; simpl in *; try done;
    pose proof (Hme (S j) Ht); simpl in *; try specialize (H0 eq_refl); congruence.
Qed.

Lemma worker_step_mutual_exclusion i s s' :
  worker_step i s = Some s' -> owner_in_cs s -> mutual_exclusion s -> mutual_exclusion s'.
Proof.
  intros H Hown Hme. destruct (worker_step_some _ _ _ H) as [w Hw].
  assert (worker_holds (w_pc w) = true -> s_mutex s = Some (S i)) as Hi.
  { intros Hh. apply (Hme (S i)). unfold holds; simpl. by rewrite Hw. }
  assert (worker_holds (w_pc w) = false -> s_mutex s <> Some (S i)) as Hni.
  { intros Hf Hm. pose proof (Hown _ Hm) as Hh. unfold holds in Hh; simpl in Hh.
    rewrite Hw in Hh. congruence. }
  unfold worker_step, acquire, release, lock in H. rewrite Hw in H.
  split_step H; intros t Ht; unfold holds in *; simpl_sys;
    rewrite ?holds_in_insert in Ht;
    repeat match goal with E : w_pc _ = _ |- _ => rewrite E in *; clear E end; simpl in *;
    rewrite ?Hi, ?unlock_owner by done;
    rewrite ?unlock_not_owner by (by apply Hni);
    (case_decide as Hc; [destruct Hc as [-> _]; simpl in *; try done|]);
    pose proof (Hme t Ht); simpl in *; try specialize (Hi eq_refl); try congruence;
    (exfalso; apply Hc; split; [congruence|by eapply lookup_lt_Some]).
Qed.

(** ** Registers *)

Lemma me_main_excl s j w :
  mutual_exclusion s -> main_holds (s_main s) = true -> s_workers s !! j = Some w ->
  worker_holds (w_pc w) = false.
Proof.
  intros Hme Hm Hw. destruct (worker_holds (w_pc w)) eqn:E; [|done].
  pose proof (Hme 0 Hm). assert (holds s (S j) = true) as Hj by (unfold holds; simpl; by rewrite Hw).
  pose proof (Hme _ Hj). congruence.
Qed.

Lemma me_worker_excl s i w j w' :
  mutual_exclusion s -> s_workers s !! i = Some w -> worker_holds (w_pc w) = true ->
  s_workers s !! j = Some w' -> worker_holds (w_pc w') = true -> j = i.
Proof.
  intros Hme Hw Hh Hw' Hh'.
  assert (holds s (S i) = true) as Hi by (unfold holds; simpl; by rewrite Hw).
  assert (holds s (S j) = true) as Hj by (unfold holds; simpl; by rewrite Hw').
  pose proof (Hme _ Hi). pose proof (Hme _ Hj). congruence.
Qed.

Lemma me_worker_main s i w :
  mutual_exclusion s -> s_workers s !! i = Some w -> worker_holds (w_pc w) = true ->
  main_holds (s_main s) = false.
Proof.
  intros Hme Hw Hh. destruct (main_holds (s_main s)) eqn:E; [|done].
  by rewrite (me_main_excl _ _ _ Hme E Hw) in Hh.
Qed.

Lemma store_holds pc : is_store pc = true -> worker_holds pc = true.
Proof. by destruct pc. Qed.

Lemma main_step_registers ok s s' :
  main_step ok s = Some s' -> mutual_exclusion s -> registers_fresh s -> registers_fresh s'.
Proof.
  intros H Hme [Hm Hws]. unfold main_step, acquire, release, lock in H.
  split_step H; split; simpl_sys; try done; try (intros; congruence);
    try (case_decide; intros; congruence).
  - (* the store of line 100: no worker is in a critical section *)
    intros j w Hw Hst. apply store_holds in Hst.
    by rewrite (me_main_excl s j w Hme) in Hst; [|rewrite Heqm|].
  - intros j w Hw Hst. apply lookup_app_Some in Hw as [Hw|[_ Hw]]; [by eapply Hws|].
    apply list_lookup_singleton_Some in Hw as [_ <-]. done.
Qed.

Lemma worker_step_registers i s s' :
  worker_step i s = Some s' -> mutual_exclusion s -> registers_fresh s -> registers_fresh s'.
Proof.
  intros H Hme [Hm Hws]. destruct (worker_step_some _ _ _ H) as [w Hw].
  unfold worker_step, acquire, release, lock in H. rewrite Hw in H.
  split_step H; split; simpl_sys; try done.
  (* [main] is not at its store while worker [i] stores *)
  all: try (intros Hmain; pose proof (me_worker_main s i w Hme Hw) as Hx;
            match goal with E : w_pc _ = _ |- _ => rewrite E in Hx end;
            rewrite Hmain in Hx; by specialize (Hx eq_refl)).
  all: intros j w0 Hj Hst; apply list_lookup_insert_Some in Hj as [(<- & <- & _)|(Hne & Hj)];
    simpl in *; try done; try (by case_decide); try by eapply Hws.
  (* no other worker is at its store while worker [i] stores *)
  all: exfalso; apply Hne; symmetry;
    eapply (me_worker_excl s i w j w0 Hme Hw); [|done|by apply store_holds];
    match goal with E : w_pc _ = _ |- _ => by rewrite E end.
Qed.

Lemma sum_contrib_insert (ws : list worker) i w w' :
  ws !! i = Some w ->
  sum_list_with (fun v => contrib (w_pc v)) (<[i:=w']> ws) + contrib (w_pc w) =
  sum_list_with (fun v => contrib (w_pc v)) ws + contrib (w_pc w').
Proof. apply (sum_list_with_insert (fun v => contrib (w_pc v))). Qed.

(** ** The accounting *)

Ltac account_tac :=
  unfold accounted, spawned in *; simpl_sys;
  rewrite ?failed_creates_app, ?sum_list_with_snoc in *;
  repeat match goal with E : s_main _ = _ |- _ => rewrite E in *; clear E end;
  repeat case_decide; simpl in *; try lia.

Lemma main_step_accounting ok s s' :
  main_step ok s = Some s' -> registers_fresh s ->
  s_count s = Z.of_nat (accounted s) -> s_count s' = Z.of_nat (accounted s').
Proof.
  intros H [Hm _] Hc. unfold main_step, acquire, release, lock in H.
  split_step H; account_tac. specialize (Hm eq_refl). lia.
Qed.

Lemma worker_step_accounting i s s' :
  worker_step i s = Some s' -> registers_fresh s -> shutdown_dead s ->
  s_count s = Z.of_nat (accounted s) -> s_count s' = Z.of_nat (accounted s').
Proof.
  intros H [_ Hr] (_ & _ & Hd) Hc. destruct (worker_step_some _ _ _ H) as [w Hw].
  pose proof (Hr i w Hw) as Hri. rewrite Forall_lookup in Hd. pose proof (Hd i w Hw) as Hdi.
  unfold worker_step, acquire, release, lock in H. rewrite Hw in H.
  split_step H; unfold accounted in *; simpl_sys;
    rewrite ?failed_creates_app, ?failed_creates_print in *;
    match goal with |- context [<[i:=?w']> _] => pose proof (sum_contrib_insert _ i w w' Hw) end;
    repeat match goal with E : w_pc _ = _ |- _ => rewrite E in *; clear E end;
    repeat case_decide; simpl in *; try specialize (Hri eq_refl); try lia.
Qed.

(** ** The thread budget *)

Lemma main_step_budget ok s s' :
  main_step ok s = Some s' -> s_count s = Z.of_nat (accounted s) ->
  spawned s + main_slot (s_main s) <= Z.to_nat MAX_CLIENTS ->
  spawned s' + main_slot (s_main s') <= Z.to_nat MAX_CLIENTS.
Proof.
  intros H Hc Hb. pose proof (accounted_ge_spawned s) as Hge.
  unfold main_step, acquire, release, lock in H.
  split_step H; unfold spawned, accounted, MAX_CLIENTS in *; simpl_sys;
    rewrite ?failed_creates_app, ?length_app in *;
    repeat match goal with E : s_main _ = _ |- _ => rewrite E in *; clear E end;
    repeat case_decide; simpl in *; lia.
Qed.

Lemma worker_step_budget i s s' :
  worker_step i s = Some s' ->
  spawned s + main_slot (s_main s) <= Z.to_nat MAX_CLIENTS ->
  spawned s' + main_slot (s_main s') <= Z.to_nat MAX_CLIENTS.
Proof.
  intros H Hb. unfold worker_step, acquire, release, lock in H.
  split_step H; unfold spawned in *; simpl_sys;
    rewrite ?failed_creates_app, ?failed_creates_print, ?length_insert in *;
    repeat case_decide; simpl in *; lia.
Qed.

(** ** The invariant *)

Lemma count_inv_init stale : count_inv (init stale).
Proof. repeat split; try done; [by intros []|cbv; lia]. Qed.

Lemma count_inv_step s l s' :
  reachable MS s -> count_inv s -> step s l = Some s' -> count_inv s'.
Proof.
  intros Hr (Hme & Hreg & Hc & Hb) Hl.
  pose proof (owner_in_cs_reachable s Hr) as Hown.
  pose proof (shutdown_dead_reachable s Hr) as Hdead.
  apply step_cases in Hl as (_ & [[ok H]|[[i H]|[a H]]]).
  - split_and!; eauto using main_step_mutual_exclusion, main_step_registers,
      main_step_accounting, main_step_budget.
  - split_and!; eauto using worker_step_mutual_exclusion, worker_step_registers,
      worker_step_accounting, worker_step_budget.
  - apply client_step_kernel in H as [k ->]. by split_and!.
Qed.

Lemma count_inv_reachable s : reachable MS s -> count_inv s.
Proof. apply reachable_ind_strong; [apply count_inv_init|apply count_inv_step]. Qed.

(** ** Consequences *)

(** C1: over the whole life of the server at most [MAX_CLIENTS] worker
    threads are created (or attempted): a thread that finished still
    counts, so the capacity is a lifetime quota, not a bound on
    simultaneous clients. *)
Theorem threads_created_bounded s :
  reachable MS s -> spawned s <= Z.to_nat MAX_CLIENTS.
Proof. intros Hr. destruct (count_inv_reachable s Hr) as (_ & _ & _ & Hb). lia. Qed.

(** C2: [connectedClientsCount] is exactly the accounting: 1 for every
    thread created and still starting or finished, 2 for every thread
    started and not yet past its decrement, 1 for an increment whose
    thread is about to be created, 1 for every failed [pthread_create]. *)
Theorem count_accounting s :
  reachable MS s -> s_count s = Z.of_nat (accounted s).
Proof. intros Hr. by destruct (count_inv_reachable s Hr) as (_ & _ & Hc & _). Qed.

(** C3: the counter never drops below the number of threads ever created;
    once ten have been created, the capacity test of line 99 fails
    forever and every connection is closed at line 105. *)
Theorem admission_closed_after_quota s ok :
  reachable MS s -> spawned s = Z.to_nat MAX_CLIENTS -> s_main s = MCheckCap ->
  main_step ok s = Some (set_main MCloseRej s).
Proof.
  intros Hr Hs Hm. destruct (count_inv_reachable s Hr) as (_ & _ & Hc & _).
  pose proof (accounted_ge_spawned s) as Hge.
  unfold main_step. rewrite Hm. rewrite decide_False; [done|].
  unfold MAX_CLIENTS in *. simpl in Hs. lia.
Qed.

(** C7: the counter never falls below the number of threads created so
    far and never exceeds [2 * MAX_CLIENTS]: it stays in [0, 20] and the
    [int] never overflows. *)
Theorem count_bounds s :
  reachable MS s -> (Z.of_nat (spawned s) <= s_count s <= 2 * MAX_CLIENTS)%Z /\ int_range (s_count s).
Proof.
  intros Hr. destruct (count_inv_reachable s Hr) as (_ & _ & Hc & Hb).
  pose proof (accounted_le s). pose proof (accounted_ge_spawned s). unfold int_range, INT_MIN, INT_MAX, MAX_CLIENTS in *.
  simpl in Hb. lia.
Qed.

End Checked.

(** ** Witnesses *)

Lemma threads_created_bounded_witness :
  reachable errorcheck_mutex st_lifetime /\ spawned st_lifetime <= Z.to_nat MAX_CLIENTS.
Proof.
  assert (reachable errorcheck_mutex st_lifetime) as Hr
    by (apply state_of_reachable; vm_compute; eauto).
  split; [exact Hr|]. exact (threads_created_bounded st_lifetime Hr).
Defined.

Lemma count_accounting_witness :
  reachable errorcheck_mutex st_count20 /\
  s_count st_count20 = Z.of_nat (accounted st_count20).
Proof.
  assert (reachable errorcheck_mutex st_count20) as Hr
    by (apply state_of_reachable; vm_compute; eauto).
  split; [exact Hr|]. exact (count_accounting st_count20 Hr).
Defined.

Lemma admission_closed_after_quota_witness :
  reachable errorcheck_mutex st_quota /\ spawned st_quota = Z.to_nat MAX_CLIENTS /\
  s_main st_quota = MCheckCap /\
  main_step (MS := errorcheck_mutex) true st_quota = Some (set_main MCloseRej st_quota).
Proof.
  assert (reachable errorcheck_mutex st_quota) as Hr
    by (apply state_of_reachable; vm_compute; eauto).
  assert (spawned st_quota = Z.to_nat MAX_CLIENTS) as Hs by (vm_compute; reflexivity).
  assert (s_main st_quota = MCheckCap) as Hm by (vm_compute; reflexivity).
  split_and!; [exact Hr|exact Hs|exact Hm|].
  exact (admission_closed_after_quota st_quota true Hr Hs Hm).
Defined.

Lemma count_bounds_witness :
  reachable errorcheck_mutex st_count20 /\ s_count st_count20 = (2 * MAX_CLIENTS)%Z /\
  (Z.of_nat (spawned st_count20) <= s_count st_count20 <= 2 * MAX_CLIENTS)%Z.
Proof.
  assert (reachable errorcheck_mutex st_count20) as Hr
    by (apply state_of_reachable; vm_compute; eauto).
  split; [exact Hr|split; [vm_compute; reflexivity|]].
  exact (proj1 (count_bounds st_count20 Hr)).
Defined.

End ServerCount.
