(* ===== verification/Client.v ===== *)
(** * The client program of [src/client.c]

    One client process as a state machine over its standard input.  The
    state holds what the code keeps across statements: the stage of the
    outer loop ([while ((serverFd = open(...)) == -1)], the password check,
    the inner loop), [serverFd], [username], [usernameJoined], the contents
    last stored in [message], the remaining standard input, the outcomes
    of the coming [write]s, and the byte strings written so far.
    [client_step] runs one pass of a loop body; [run_client] iterates it
    with fuel and stops at [exit]. *)

From S2P Require Import Prelude CString Pipe.
From stdpp Require Import strings.

Module Client.
Import CString Pipe.

(** [#define AUTH_PASSWORD "password"] *)
Definition AUTH_PASSWORD : list byte := lit "password".
(** The sizes of [password], [username], [message], [fullMessage]. *)
Definition PASSWORD_SIZE : nat := 50.
Definition USERNAME_SIZE : nat := 50.
Definition MESSAGE_SIZE : nat := 256.
Definition FULLMESSAGE_SIZE : nat := 512.
Definition EXIT_COMMAND : list byte := lit "exit".

Inductive stage := SOpen | SPassword | SLoop.

Record client := mkClient {
  c_stage : stage;
  c_fd : Z;                          (** [serverFd] *)
  c_open_fails : nat;                (** [open] attempts that fail before one succeeds *)
  c_stdin : list byte;               (** what standard input still holds *)
  c_writes_ok : list bool;           (** outcomes of the next [write]s; none left: success *)
  c_username : list byte;            (** contents of [username] *)
  c_joined : bool;                   (** [usernameJoined] *)
  c_message : option (list byte);    (** contents last stored in [message] *)
  c_sent : list (list byte)          (** bytes of each successful [write], in order *)
}.

Definition start (inp : list byte) (open_fails : nat) (writes_ok : list bool) : client :=
  mkClient SOpen (-1) open_fails inp writes_ok [] false None [].

Definition set_stage st c := mkClient st (c_fd c) (c_open_fails c) (c_stdin c) (c_writes_ok c) (c_username c) (c_joined c) (c_message c) (c_sent c).
Definition set_fd fd c := mkClient (c_stage c) fd (c_open_fails c) (c_stdin c) (c_writes_ok c) (c_username c) (c_joined c) (c_message c) (c_sent c).
Definition set_open_fails n c := mkClient (c_stage c) (c_fd c) n (c_stdin c) (c_writes_ok c) (c_username c) (c_joined c) (c_message c) (c_sent c).
Definition set_stdin i c := mkClient (c_stage c) (c_fd c) (c_open_fails c) i (c_writes_ok c) (c_username c) (c_joined c) (c_message c) (c_sent c).
Definition set_user u c := mkClient (c_stage c) (c_fd c) (c_open_fails c) (c_stdin c) (c_writes_ok c) u true (c_message c) (c_sent c).
Definition set_message m c := mkClient (c_stage c) (c_fd c) (c_open_fails c) (c_stdin c) (c_writes_ok c) (c_username c) (c_joined c) (Some m) (c_sent c).

(** What one pass of a loop body leads to. *)
Inductive cstep :=
| CNext (c : client)                   (** the loops go on *)
| CExit (code : Z) (sent : list (list byte))  (** [exit(code)] *)
| CUndef (sent : list (list byte)).     (** an indeterminate array is read *)

(** [write(serverFd, fullMessage, strlen(fullMessage) + 1)]: [None] is the
    [-1] return.  (A write to a FIFO that no process reads raises SIGPIPE,
    which ends the client without a return; that case is not modelled.) *)
Definition c_write (bs : list byte) (c : client) : option client :=
  let ok := match c_writes_ok c with b :: _ => b | [] => true end in
  if ok then Some (mkClient (c_stage c) (c_fd c) (c_open_fails c) (c_stdin c) (tail (c_writes_ok c))
                    (c_username c) (c_joined c) (c_message c) (c_sent c ++ [bs]))
  else None.

(** Lines 48-51: drop one trailing newline. *)
Definition strip_nl (s : list byte) : list byte :=
  match last s with
  | Some x => if decide (x = NEWLINE) then removelast s else s
  | None => s
  end.

(** [snprintf(fullMessage, sizeof(fullMessage), "%s joined", username)]
    and the two other formats. *)
Definition joined_msg (u : list byte) : list byte := snprintf FULLMESSAGE_SIZE (u ++ lit " joined").
Definition exited_msg (u : list byte) : list byte := snprintf FULLMESSAGE_SIZE (u ++ lit " exited").
Definition chat_msg (u m : list byte) : list byte := snprintf FULLMESSAGE_SIZE (u ++ lit ": " ++ m).

(** Send [full]; a failed [write] ends the process with status 1
    (lines 55-59, 76-80, 90-94). *)
Definition send (full : list byte) (c : client) (k : client -> cstep) : cstep :=
  match c_write (wire full) c with
  | Some c' => k c'
  | None => CExit 1 (c_sent c)
  end.

(** One pass of the body of the inner loop (lines 41-96).  When [fgets]
    returns NULL at end of input it stores nothing: before [usernameJoined]
    the uninitialised [username] is then read ([CUndef]); in the message
    branch [message] keeps the bytes of the previous pass.  (The C standard
    makes a block-scope array indeterminate each time its declaration is
    reached; compilers give [message] the same stack slot each pass, and
    the model follows what the compiled code does.) *)
Definition loop_step (c : client) : cstep :=
  if negb (c_joined c) then
    (* lines 44-61 *)
    match fgets USERNAME_SIZE (c_stdin c) with
    | None => CUndef (c_sent c)
    | Some (line, rest) =>
        let u := strip_nl (cstr_prefix line) in
        send (joined_msg u) (set_user u (set_stdin rest c)) CNext
    end
  else
    (* lines 62-95 *)
    let '(m, rest) :=
      match fgets MESSAGE_SIZE (c_stdin c) with
      | Some (line, rest) => (Some (cstr_prefix line), rest)
      | None => (c_message c, [])
      end in
    match m with
    | None => CUndef (c_sent c)
    | Some m =>
        let c1 := set_message m (set_stdin rest c) in
        if decide (c_fd c = -1)%Z then CNext (set_stage SOpen c1)
        else if strncmp_eq (length EXIT_COMMAND) m EXIT_COMMAND then
          send (exited_msg (c_username c)) c1 (fun c' => CExit 0 (c_sent c'))
        else send (chat_msg (c_username c) m) c1 CNext
    end.

(** One pass of a loop body of [main]. *)
Definition client_step (c : client) : cstep :=
  match c_stage c with
  | SOpen =>
      (* line 25: the retry loop; the client holds no other descriptor *)
      match c_open_fails c with
      | S n => CNext (set_open_fails n c)
      | O => CNext (set_stage SPassword (set_fd FIRST_FD c))
      end
  | SPassword =>
      (* lines 32-39 *)
      match fgets PASSWORD_SIZE (c_stdin c) with
      | None => CUndef (c_sent c)
      | Some (line, rest) =>
          if strncmp_eq (length AUTH_PASSWORD) (cstr_prefix line) AUTH_PASSWORD
          then CNext (set_stage SLoop (set_stdin rest c))
          else CExit 1 (c_sent c)
      end
  | SLoop => loop_step c
  end.

Inductive outcome :=
| Exited (code : Z) (sent : list (list byte))
| Undefined (sent : list (list byte))
| Running (c : client).

Fixpoint run_client (fuel : nat) (c : client) : outcome :=
  match fuel with
  | O => Running c
  | S f =>
      match client_step c with
      | CNext c' => run_client f c'
      | CExit code sent => Exited code sent
      | CUndef sent => Undefined sent
      end
  end.

(** A line typed on standard input. *)
Definition line (s : list byte) : list byte := s ++ [NEWLINE].

(** A line [fgets(buf, size, stdin)] returns whole: no NUL, no newline
    inside, shorter than [size - 1]. *)
Definition fits (size : nat) (s : list byte) : Prop :=
  NUL ∉ s /\ NEWLINE ∉ s /\ length s < size - 1.

#[export] Instance fits_dec size s : Decision (fits size s).
Proof. unfold fits. apply _. Defined.

Definition sent_of (o : outcome) : list (list byte) :=
  match o with Exited _ sent | Undefined sent => sent | Running c => c_sent c end.

(** The client after [n] more [write]s of [w]. *)
Definition add_sent (ws : list (list byte)) (c : client) : client :=
  mkClient (c_stage c) (c_fd c) (c_open_fails c) (c_stdin c) (c_writes_ok c)
    (c_username c) (c_joined c) (c_message c) (c_sent c ++ ws).

(** The longest [write]: [strlen(fullMessage) + 1] with a 49-byte
    [username], ": " and a 255-byte [message]. *)
Definition MAX_WRITE : nat := (USERNAME_SIZE - 1) + 2 + (MESSAGE_SIZE - 1) + 1.

(** A [write] of the client: at most [MAX_WRITE] bytes, a C string and
    its one NUL. *)
Definition write_ok (w : list byte) : Prop :=
  length w <= MAX_WRITE /\ exists x, w = wire x /\ NUL ∉ x.

(** What the code keeps within its arrays: [username] and [message] hold
    C strings that [fgets] can store in them, and every write so far is
    [write_ok]. *)
Definition cinv (c : client) : Prop :=
  (length (c_username c) < USERNAME_SIZE /\ NUL ∉ c_username c) /\
  (if c_message c is Some m then length m < MESSAGE_SIZE /\ NUL ∉ m else True) /\
  Forall write_ok (c_sent c).

Definition cstep_ok (r : cstep) : Prop :=
  match r with
  | CNext c' => cinv c'
  | CExit _ sent | CUndef sent => Forall write_ok sent
  end.

(** ** Lemmas *)

Lemma nul_newline : NUL <> NEWLINE.
Proof. done. Qed.

Lemma fgets_line_ok size s rest :
  NEWLINE ∉ s -> length s < size - 1 -> fgets size (line s ++ rest) = Some (line s, rest).
Proof.
  intros Hn Hl. unfold fgets, line. rewrite <- app_assoc.
  change ([NEWLINE] ++ rest) with (NEWLINE :: rest).
  rewrite fgets_line_fits by (done || lia). by destruct s.
Qed.

Lemma cstr_prefix_line s : NUL ∉ s -> cstr_prefix (line s) = line s.
Proof. intros Hn. apply cstr_prefix_no_nul. unfold line. set_solver. Qed.

Lemma strip_nl_line s : strip_nl (line s) = s.
Proof. unfold strip_nl, line. rewrite last_snoc, decide_True by done. by rewrite removelast_last. Qed.

Lemma run_client_more fuel c code sent :
  run_client fuel c = Exited code sent -> forall fuel', fuel <= fuel' -> run_client fuel' c = Exited code sent.
Proof.
  revert c. induction fuel as [|f IH]; intros c H fuel' Hle; [done|].
  destruct fuel' as [|f']; [lia|]. simpl in *.
  destruct (client_step c); try done. apply IH; [done|lia].
Qed.

Lemma run_client_add a b c :
  run_client (a + b) c = match run_client a c with Running c' => run_client b c' | o => o end.
Proof.
  revert c. induction a as [|a IH]; intros c; [done|]. simpl.
  destruct (client_step c); [apply IH|done|done].
Qed.

(** The retry loop of line 25 ends after the failing attempts. *)
Lemma run_open k c :
  c_stage c = SOpen -> c_open_fails c = k ->
  run_client (S k) c = Running (set_stage SPassword (set_fd FIRST_FD (set_open_fails 0 c))).
Proof.
  revert c. induction k as [|k IH]; intros [st fd n i w u j m sn] Hs Hk; simpl in Hs, Hk; subst; [done|].
  change (run_client (S (S k)) (mkClient SOpen fd (S k) i w u j m sn))
    with (run_client (S k) (mkClient SOpen fd k i w u j m sn)).
  by rewrite IH.
Qed.

Lemma strncmp_eq_line_prefix p r :
  NUL ∉ p -> strncmp_eq (length p) (line (p ++ r)) p = true.
Proof. intros Hn. apply strncmp_eq_prefix; [done|]. exists (r ++ [NEWLINE]). unfold line. by rewrite <- app_assoc. Qed.

(** One pass of the inner loop on a message that is not [exit]. *)
Lemma step_message c m rest :
  c_stage c = SLoop -> c_joined c = true -> c_fd c <> (-1)%Z -> c_writes_ok c = [] ->
  fits MESSAGE_SIZE m -> strncmp_eq (length EXIT_COMMAND) (line m) EXIT_COMMAND = false ->
  c_stdin c = line m ++ rest ->
  client_step c = CNext (mkClient SLoop (c_fd c) (c_open_fails c) rest [] (c_username c) true
                           (Some (line m)) (c_sent c ++ [wire (chat_msg (c_username c) (line m))])).
Proof.
  intros Hs Hj Hfd Hw (Hn & Hl & Hlen) Hx Hi.
  destruct c as [st fd n i w u j msg sn]; simpl in Hs, Hj, Hfd, Hw, Hi |- *; subst.
  unfold client_step, loop_step. cbn -[fgets cstr_prefix strncmp_eq chat_msg line wire EXIT_COMMAND length].
  rewrite fgets_line_ok, cstr_prefix_line by done.
  rewrite decide_False by done. rewrite Hx. done.
Qed.

(** The messages that are not [exit] are sent one per pass, in order. *)
Lemma run_messages ms rest c :
  c_stage c = SLoop -> c_joined c = true -> c_fd c <> (-1)%Z -> c_writes_ok c = [] ->
  Forall (fun m => fits MESSAGE_SIZE m /\ strncmp_eq (length EXIT_COMMAND) (line m) EXIT_COMMAND = false) ms ->
  c_stdin c = mjoin (line <$> ms) ++ rest ->
  exists c', run_client (length ms) c = Running c' /\ c_stage c' = SLoop /\ c_joined c' = true /\
    c_fd c' = c_fd c /\ c_writes_ok c' = [] /\ c_username c' = c_username c /\ c_stdin c' = rest /\
    c_sent c' = c_sent c ++ ((fun m => wire (chat_msg (c_username c) (line m))) <$> ms).
Proof.
  revert c. induction ms as [|m ms IH]; intros c Hs Hj Hfd Hw Hms Hi.
  - exists c. simpl in *. split_and!; try done. by rewrite app_nil_r.
  - apply Forall_cons in Hms as [[Hm Hx] Hms].
    assert (c_stdin c = line m ++ (mjoin (line <$> ms) ++ rest)) as Hi'
      by (rewrite Hi; simpl; by rewrite app_assoc).
    change (run_client (length (m :: ms)) c) with
      (match client_step c with CNext c' => run_client (length ms) c' | CExit code sent => Exited code sent
       | CUndef sent => Undefined sent end).
    rewrite (step_message c m _ Hs Hj Hfd Hw Hm Hx Hi').
    edestruct IH as (c' & Hr & H1 & H2 & H3 & H4 & H5 & H6 & H7); [..|exists c'; rewrite Hr]; try done.
    simpl in *. split_and!; try done. rewrite H7. simpl. by rewrite <- app_assoc.
Qed.

Ltac client_unfold :=
  unfold client_step, loop_step;
  cbn -[fgets cstr_prefix strncmp_eq chat_msg joined_msg exited_msg line wire
        EXIT_COMMAND AUTH_PASSWORD length].

(** Lines 32-39 on a password line [p]. *)
Lemma step_password c p rest :
  c_stage c = SPassword -> fits PASSWORD_SIZE p -> c_stdin c = line p ++ rest ->
  client_step c =
    if strncmp_eq (length AUTH_PASSWORD) (line p) AUTH_PASSWORD
    then CNext (set_stage SLoop (set_stdin rest c)) else CExit 1 (c_sent c).
Proof.
  intros Hs (Hn & Hl & Hlen) Hi. destruct c as [st fd n i w u j msg sn].
  simpl in Hs, Hi; subst. client_unfold.
  by rewrite fgets_line_ok, cstr_prefix_line by done.
Qed.

(** Lines 44-61 on a username line [u]. *)
Lemma step_join c u rest :
  c_stage c = SLoop -> c_joined c = false -> c_writes_ok c = [] ->
  fits USERNAME_SIZE u -> c_stdin c = line u ++ rest ->
  client_step c = CNext (mkClient SLoop (c_fd c) (c_open_fails c) rest [] u true (c_message c)
                           (c_sent c ++ [wire (joined_msg u)])).
Proof.
  intros Hs Hj Hw (Hn & Hl & Hlen) Hi. destruct c as [st fd n i w u' j msg sn].
  simpl in Hs, Hj, Hw, Hi; subst. client_unfold.
  rewrite fgets_line_ok, cstr_prefix_line, strip_nl_line by done. done.
Qed.

(** Lines 73-85 on an [exit] line [e]. *)
Lemma step_exit c e rest :
  c_stage c = SLoop -> c_joined c = true -> c_fd c <> (-1)%Z -> c_writes_ok c = [] ->
  fits MESSAGE_SIZE e -> strncmp_eq (length EXIT_COMMAND) (line e) EXIT_COMMAND = true ->
  c_stdin c = line e ++ rest ->
  client_step c = CExit 0 (c_sent c ++ [wire (exited_msg (c_username c))]).
Proof.
  intros Hs Hj Hfd Hw (Hn & Hl & Hlen) Hx Hi. destruct c as [st fd n i w u j msg sn].
  simpl in Hs, Hj, Hfd, Hw, Hi |- *; subst. client_unfold.
  rewrite fgets_line_ok, cstr_prefix_line by done.
  rewrite decide_False by done. by rewrite Hx.
Qed.

Lemma nul_not_in_auth : NUL ∉ AUTH_PASSWORD.
Proof. apply (bool_decide_eq_true _). vm_compute. reflexivity. Qed.

Lemma nul_not_in_exit : NUL ∉ EXIT_COMMAND.
Proof. apply (bool_decide_eq_true _). vm_compute. reflexivity. Qed.

Lemma run_client_S n c :
  run_client (S n) c =
  match client_step c with
  | CNext c' => run_client n c'
  | CExit code sent => Exited code sent
  | CUndef sent => Undefined sent
  end.
Proof. done. Qed.

Lemma joined_msg_fits u : length u < USERNAME_SIZE -> joined_msg u = u ++ lit " joined".
Proof.
  intros Hu. apply snprintf_fits. rewrite length_app.
  change (length (lit " joined")) with 7. unfold USERNAME_SIZE, FULLMESSAGE_SIZE in *. lia.
Qed.

Lemma exited_msg_fits u : length u < USERNAME_SIZE -> exited_msg u = u ++ lit " exited".
Proof.
  intros Hu. apply snprintf_fits. rewrite length_app.
  change (length (lit " exited")) with 7. unfold USERNAME_SIZE, FULLMESSAGE_SIZE in *. lia.
Qed.

Lemma chat_msg_fits u m :
  length u < USERNAME_SIZE -> length m <= MESSAGE_SIZE -> chat_msg u m = u ++ lit ": " ++ m.
Proof.
  intros Hu Hm. apply snprintf_fits. rewrite !length_app.
  change (length (lit ": ")) with 2. unfold USERNAME_SIZE, MESSAGE_SIZE, FULLMESSAGE_SIZE in *. lia.
Qed.

(** C9: a session that types a password line starting with "password",
    a username, messages none of which starts with "exit", and then a line
    starting with "exit", terminates (for any fuel from the number of loop
    passes on) with status 0, after writing exactly "NAME joined", one
    "NAME: MESSAGE\n" per message in order, and "NAME exited", each
    NUL-terminated. *)
Theorem client_session p u ms e rest k fuel :
  fits PASSWORD_SIZE p -> (exists r, p = AUTH_PASSWORD ++ r) ->
  fits USERNAME_SIZE u ->
  Forall (fun m => fits MESSAGE_SIZE m /\
                   strncmp_eq (length EXIT_COMMAND) (line m) EXIT_COMMAND = false) ms ->
  fits MESSAGE_SIZE e -> (exists r, e = EXIT_COMMAND ++ r) ->
  k + length ms + 4 <= fuel ->
  run_client fuel (start (line p ++ line u ++ mjoin (line <$> ms) ++ line e ++ rest) k []) =
  Exited 0 ([wire (u ++ lit " joined")] ++ ((fun m => wire (u ++ lit ": " ++ line m)) <$> ms)
            ++ [wire (u ++ lit " exited")]).
Proof.
  intros Hp [r Hr] Hu Hms He [r' Hr'] Hf.
  apply (run_client_more (S k + (1 + (1 + (length ms + 1))))); [|lia].
  rewrite run_client_add, run_open by done.
  rewrite run_client_S, (step_password _ p (line u ++ mjoin (line <$> ms) ++ line e ++ rest)) by done.
  rewrite Hr, strncmp_eq_line_prefix by apply nul_not_in_auth.
  rewrite run_client_S, (step_join _ u (mjoin (line <$> ms) ++ line e ++ rest)) by done.
  rewrite run_client_add.
  edestruct (run_messages ms (line e ++ rest)) as (c' & Hrun & H1 & H2 & H3 & H4 & H5 & H6 & H7);
    [..|rewrite Hrun]; try done.
  rewrite run_client_S, (step_exit c' e rest); try done;
    [|rewrite H3; simpl; unfold FIRST_FD; lia|subst e; apply strncmp_eq_line_prefix, nul_not_in_exit].
  rewrite H7, H5. simpl. destruct Hu as (_ & _ & Hlu).
  rewrite joined_msg_fits, exited_msg_fits by (unfold USERNAME_SIZE in *; lia).
  do 3 f_equal. apply list_fmap_ext. intros i m Hi.
  rewrite Forall_forall in Hms.
  destruct (Hms m) as [(_ & _ & Hm) _]; [by eapply list_elem_of_lookup_2|]. rewrite chat_msg_fits; [done|unfold USERNAME_SIZE in *; lia|].
  unfold line, MESSAGE_SIZE in *. rewrite length_app. simpl. lia.
Qed.

Lemma newline_not_in_auth : NEWLINE ∉ AUTH_PASSWORD.
Proof. apply (bool_decide_eq_true _). vm_compute. reflexivity. Qed.

Lemma newline_not_in_exit : NEWLINE ∉ EXIT_COMMAND.
Proof. apply (bool_decide_eq_true _). vm_compute. reflexivity. Qed.

(** [strncmp(line, w, strlen(w)) == 0] on a typed line: the line starts
    with the word [w]. *)
Lemma strncmp_line_iff w p :
  NUL ∉ w -> NEWLINE ∉ w ->
  strncmp_eq (length w) (line p) w = true <-> exists r, p = w ++ r.
Proof.
  intros Hn Hl. rewrite strncmp_eq_prefix by done. split.
  - intros [r Hr]. by eapply prefix_of_line.
  - intros [r ->]. exists (r ++ [NEWLINE]). unfold line. by rewrite <- app_assoc.
Qed.

(** C10: the password check of line 35 compares only the first
    [strlen(AUTH_PASSWORD)] bytes: a password line is accepted exactly when
    it starts with "password" (so "password123" is accepted), and any
    other line ends the client with status 1. *)
Theorem password_accepted_iff_prefix c p rest :
  c_stage c = SPassword -> fits PASSWORD_SIZE p -> c_stdin c = line p ++ rest ->
  (client_step c = CNext (set_stage SLoop (set_stdin rest c)) <-> exists r, p = AUTH_PASSWORD ++ r) /\
  (client_step c = CExit 1 (c_sent c) <-> ~ exists r, p = AUTH_PASSWORD ++ r).
Proof.
  intros Hs Hp Hi. rewrite (step_password c p rest Hs Hp Hi).
  rewrite <- (strncmp_line_iff AUTH_PASSWORD p nul_not_in_auth newline_not_in_auth).
  destruct (strncmp_eq _ _ _); split; split; intros; try done; congruence.
Qed.

(** C11: the [exit] test of line 73 compares only four bytes: a message
    line ends the client (status 0, after sending "NAME exited") exactly
    when it starts with "exit", so "exiting soon" is never sent. *)
Theorem exit_iff_prefix c m rest :
  c_stage c = SLoop -> c_joined c = true -> c_fd c <> (-1)%Z -> c_writes_ok c = [] ->
  fits MESSAGE_SIZE m -> c_stdin c = line m ++ rest ->
  client_step c = CExit 0 (c_sent c ++ [wire (exited_msg (c_username c))]) <->
  exists r, m = EXIT_COMMAND ++ r.
Proof.
  intros Hs Hj Hfd Hw Hm Hi.
  rewrite <- (strncmp_line_iff EXIT_COMMAND m nul_not_in_exit newline_not_in_exit).
  destruct (strncmp_eq (length EXIT_COMMAND) (line m) EXIT_COMMAND) eqn:E.
  - split; [done|intros _]. by apply (step_exit c m rest).
  - rewrite (step_message c m rest) by done. split; [congruence|done].
Qed.

(** A pass of the inner loop at end of input: [fgets] returns NULL and
    leaves [message] as it was, so the last message is sent again. *)
Lemma step_eof c m :
  c_stage c = SLoop -> c_joined c = true -> c_fd c <> (-1)%Z -> c_stdin c = [] ->
  c_writes_ok c = [] -> c_message c = Some m ->
  strncmp_eq (length EXIT_COMMAND) m EXIT_COMMAND = false ->
  client_step c = CNext (add_sent [wire (chat_msg (c_username c) m)] c).
Proof.
  intros Hs Hj Hfd Hi Hw Hm Hx. destruct c as [st fd n i w u j msg sn].
  simpl in Hs, Hj, Hfd, Hi, Hw, Hm |- *; subst. client_unfold.
  change (fgets MESSAGE_SIZE []) with (@None (list byte * list byte)). client_unfold.
  rewrite decide_False by done. by rewrite Hx.
Qed.

(** C12: once standard input is exhausted after a message that is not
    [exit], the client never terminates: after any number [n] of passes it
    is still running and has sent its last message [n] more times. *)
Theorem eof_resends_forever c m n :
  c_stage c = SLoop -> c_joined c = true -> c_fd c <> (-1)%Z -> c_stdin c = [] ->
  c_writes_ok c = [] -> c_message c = Some m ->
  strncmp_eq (length EXIT_COMMAND) m EXIT_COMMAND = false ->
  run_client n c = Running (add_sent (repeat (wire (chat_msg (c_username c) m)) n) c).
Proof.
  intros Hs Hj Hfd Hi Hw Hm Hx. revert c Hs Hj Hfd Hi Hw Hm.
  induction n as [|n IH]; intros c Hs Hj Hfd Hi Hw Hm.
  - destruct c. unfold add_sent. simpl. by rewrite app_nil_r.
  - rewrite run_client_S, (step_eof c m) by done.
    rewrite IH by done. destruct c. unfold add_sent. simpl. by rewrite <- app_assoc.
Qed.

Lemma length_strip_nl s : length (strip_nl s) <= length s.
Proof.
  unfold strip_nl. destruct (last s); [case_decide|]; try lia.
  clear. induction s as [|a [|b s] IH]; simpl in *; lia.
Qed.

Lemma length_wire s : length (wire s) = S (length s).
Proof. unfold wire. rewrite length_app. simpl. lia. Qed.

Lemma length_joined_msg u : length u < USERNAME_SIZE -> length (wire (joined_msg u)) <= MAX_WRITE.
Proof.
  intros Hu. rewrite length_wire. pose proof (length_snprintf_le FULLMESSAGE_SIZE (u ++ lit " joined")).
  rewrite length_app in *. change (length (lit " joined")) with 7 in *.
  unfold joined_msg, MAX_WRITE, USERNAME_SIZE, MESSAGE_SIZE in *. lia.
Qed.

Lemma length_exited_msg u : length u < USERNAME_SIZE -> length (wire (exited_msg u)) <= MAX_WRITE.
Proof.
  intros Hu. rewrite length_wire. pose proof (length_snprintf_le FULLMESSAGE_SIZE (u ++ lit " exited")).
  rewrite length_app in *. change (length (lit " exited")) with 7 in *.
  unfold exited_msg, MAX_WRITE, USERNAME_SIZE, MESSAGE_SIZE in *. lia.
Qed.

Lemma length_chat_msg u m :
  length u < USERNAME_SIZE -> length m < MESSAGE_SIZE -> length (wire (chat_msg u m)) <= MAX_WRITE.
Proof.
  intros Hu Hm. rewrite length_wire. pose proof (length_snprintf_le FULLMESSAGE_SIZE (u ++ lit ": " ++ m)).
  rewrite !length_app in *. change (length (lit ": ")) with 2 in *.
  unfold chat_msg, MAX_WRITE, USERNAME_SIZE, MESSAGE_SIZE in *. lia.
Qed.

Lemma nul_not_in_strip_nl s : NUL ∉ s -> NUL ∉ strip_nl s.
Proof.
  unfold strip_nl. destruct (last s) as [x|] eqn:E; [|done]. case_decide; [|done].
  apply last_Some in E as [l ->]. rewrite removelast_last. set_solver.
Qed.

Lemma nul_not_in_lit_app u t : NUL ∉ u -> NUL ∉ lit t -> NUL ∉ u ++ lit t.
Proof. set_solver. Qed.

Lemma write_ok_wire full : length (wire full) <= MAX_WRITE -> NUL ∉ full -> write_ok (wire full).
Proof. intros Hl Hn. split; [done|eauto]. Qed.

Ltac nul_tac :=
  repeat first [ apply nul_not_in_snprintf | apply nul_not_in_lit_app
               | apply nul_not_in_strip_nl | apply nul_not_in_cstr_prefix
               | (apply (bool_decide_eq_true _); vm_compute; reflexivity) | done
               | (apply not_elem_of_app; split) ].

(** [send] keeps the invariant when the string it writes is short enough. *)
Lemma send_ok full c k :
  cinv c -> write_ok (wire full) ->
  (forall c', cinv c' -> cstep_ok (k c')) -> cstep_ok (send full c k).
Proof.
  intros (Hu & Hm & Hs) Hw Hk. unfold send, c_write.
  destruct (c_writes_ok c) as [|[] ?]; simpl; try done;
    apply Hk; refine (conj Hu (conj Hm _)); simpl; apply Forall_app; auto.
Qed.

Ltac cinv_tac := unfold cstep_ok, cinv; cbn; repeat split; auto; try lia.

(** The tail of the inner loop (lines 70-95) for a message that fits in
    [message]. *)
Local Ltac loop_tail :=
  case_decide; [cinv_tac|];
  destruct (strncmp_eq _ _ _);
    (apply send_ok; [cinv_tac| apply write_ok_wire; [|unfold exited_msg, chat_msg; nul_tac] |]);
  [ apply length_exited_msg; done | intros ? (_ & _ & ?); done
  | apply length_chat_msg; done | intros; done ].

(** Every pass keeps [cinv]. *)
Lemma client_step_ok c : cinv c -> cstep_ok (client_step c).
Proof.
  destruct c as [st fd n i w u j msg sn]. intros Hc. pose proof Hc as ([Hu Hun] & Hm & Hs).
  unfold client_step, loop_step.
  cbn -[fgets strncmp_eq cstr_prefix strip_nl send joined_msg exited_msg chat_msg wire length] in *.
  destruct st.
  - destruct n; cinv_tac.
  - destruct (fgets PASSWORD_SIZE i) as [[l r]|]; [destruct (strncmp_eq _ _ _)|]; cinv_tac.
  - destruct j; cbn -[fgets strncmp_eq cstr_prefix strip_nl send joined_msg exited_msg chat_msg wire length].
    + destruct (fgets MESSAGE_SIZE i) as [[l r]|] eqn:Hf.
      * pose proof (length_fgets _ _ _ _ Hf). pose proof (length_cstr_prefix l).
        assert (length (cstr_prefix l) < MESSAGE_SIZE) by (unfold MESSAGE_SIZE in *; lia).
        pose proof (nul_not_in_cstr_prefix l).
        loop_tail.
      * destruct msg as [m|]; [destruct Hm; loop_tail|done].
    + destruct (fgets USERNAME_SIZE i) as [[l r]|] eqn:Hf; [|done].
      pose proof (length_fgets _ _ _ _ Hf). pose proof (length_cstr_prefix l).
      pose proof (length_strip_nl (cstr_prefix l)).
      apply send_ok; [cinv_tac; nul_tac| |intros; done].
      apply write_ok_wire; [|unfold joined_msg; nul_tac].
      apply length_joined_msg. unfold USERNAME_SIZE in *. lia.
Qed.

Lemma run_client_ok n c : cinv c -> Forall write_ok (sent_of (run_client n c)).
Proof.
  revert c. induction n as [|n IH]; intros c Hc; simpl; [apply Hc|].
  pose proof (client_step_ok c Hc). destruct (client_step c); simpl in *; auto.
Qed.

Lemma cinv_start inp k wok : cinv (start inp k wok).
Proof. cinv_tac; [unfold USERNAME_SIZE; lia|set_solver]. Qed.

(** C13: whatever standard input holds and however [open] and [write]
    behave, every [write] of the client sends at most [MAX_WRITE] = 307
    bytes: [username] and [message] bound what [snprintf] produces. *)
Theorem writes_bounded inp k wok n :
  Forall (fun w => length w <= MAX_WRITE) (sent_of (run_client n (start inp k wok))).
Proof.
  eapply Forall_impl; [apply run_client_ok, cinv_start|]. by intros w [Hl _].
Qed.

(** C22: whatever standard input holds, every [write] of the client is a
    C string followed by its one NUL: the framing the server's
    [printf("%s")] relies on. *)
Theorem writes_framed inp k wok n :
  Forall (fun w => exists x, w = wire x /\ NUL ∉ x) (sent_of (run_client n (start inp k wok))).
Proof.
  eapply Forall_impl; [apply run_client_ok, cinv_start|]. by intros w [_ Hx].
Qed.

Lemma strip_nl_no_newline s : NEWLINE ∉ s -> strip_nl s = s.
Proof.
  intros Hn. unfold strip_nl. destruct (last s) as [x|] eqn:E; [|done].
  rewrite decide_False; [done|]. intros ->. apply Hn. by eapply last_Some_elem_of.
Qed.

(** A user name line of [USERNAME_SIZE - 1] bytes or more: [username]
    receives its first 49 bytes, the rest of the line stays on standard
    input. *)
Lemma step_join_long c u rest :
  c_stage c = SLoop -> c_joined c = false -> c_writes_ok c = [] ->
  NUL ∉ u -> NEWLINE ∉ u -> length u = USERNAME_SIZE - 1 -> c_stdin c = u ++ rest ->
  client_step c = CNext (mkClient SLoop (c_fd c) (c_open_fails c) rest [] u true (c_message c)
                           (c_sent c ++ [wire (joined_msg u)])).
Proof.
  intros Hs Hj Hw Hn Hl Hlen Hi. destruct c as [st fd n i w u' j msg sn].
  simpl in Hs, Hj, Hw, Hi; subst. client_unfold.
  rewrite fgets_long by (done || (intros ->; done)).
  rewrite cstr_prefix_no_nul, strip_nl_no_newline by done. done.
Qed.

(** C21: a user name of 49 bytes or more does not fit in [username]
    ([fgets(username, 50, stdin)]): the client announces the first 49
    bytes, and the rest of the line, with its newline, becomes its first
    chat message (an empty one, "u: " and the newline, for exactly 49
    bytes). *)
Theorem long_username_spills p u1 u2 rest k :
  fits PASSWORD_SIZE p -> (exists r, p = AUTH_PASSWORD ++ r) ->
  NUL ∉ u1 -> NEWLINE ∉ u1 -> length u1 = USERNAME_SIZE - 1 ->
  fits MESSAGE_SIZE u2 -> strncmp_eq (length EXIT_COMMAND) (line u2) EXIT_COMMAND = false ->
  exists c, run_client (k + 4) (start (line p ++ line (u1 ++ u2) ++ rest) k []) = Running c /\
    c_username c = u1 /\
    c_sent c = [wire (u1 ++ lit " joined"); wire (u1 ++ lit ": " ++ line u2)].
Proof.
  intros Hp [r Hr] Hn1 Hl1 Hlen Hu2 Hx.
  replace (k + 4) with (S k + (1 + (1 + 1))) by lia.
  rewrite run_client_add, run_open by done.
  rewrite run_client_S, (step_password _ p (line (u1 ++ u2) ++ rest)) by done.
  rewrite Hr, strncmp_eq_line_prefix by apply nul_not_in_auth.
  rewrite run_client_S, (step_join_long _ u1 (line u2 ++ rest)); try done;
    [|simpl; unfold line; by rewrite <- !app_assoc].
  rewrite run_client_S, (step_message _ u2 rest); try done; try (simpl; unfold FIRST_FD; lia).
  eexists. split; [reflexivity|]. split; [done|]. simpl.
  rewrite joined_msg_fits by (unfold USERNAME_SIZE in *; lia).
  rewrite chat_msg_fits; [done|unfold USERNAME_SIZE in *; lia|].
  destruct Hu2 as (_ & _ & Hm). unfold line, MESSAGE_SIZE in *. rewrite length_app. simpl. lia.
Qed.

Ltac fits_tac := apply (bool_decide_eq_true _); vm_compute; reflexivity.

Lemma client_session_witness :
  run_client 5 (start (line AUTH_PASSWORD ++ line (lit "alice") ++ mjoin (line <$> [lit "hello"]) ++
                       line EXIT_COMMAND ++ []) 0 []) =
  Exited 0 ([wire (lit "alice" ++ lit " joined")] ++
            ((fun m => wire (lit "alice" ++ lit ": " ++ line m)) <$> [lit "hello"])
            ++ [wire (lit "alice" ++ lit " exited")]).
Proof.
  apply client_session; try fits_tac; exists []; reflexivity.
Defined.

Lemma password_accepted_iff_prefix_witness :
  let c := mkClient SPassword 3 0 (line (lit "password1") ++ []) [] [] false None [] in
  (client_step c = CNext (set_stage SLoop (set_stdin [] c)) <-> exists r, lit "password1" = AUTH_PASSWORD ++ r) /\
  (client_step c = CExit 1 (c_sent c) <-> ~ exists r, lit "password1" = AUTH_PASSWORD ++ r).
Proof. intros c. apply (password_accepted_iff_prefix c (lit "password1") []); [reflexivity|fits_tac|reflexivity]. Defined.

Lemma exit_iff_prefix_witness :
  let c := mkClient SLoop 3 0 (line (lit "exit now") ++ []) [] (lit "alice") true None [] in
  client_step c = CExit 0 (c_sent c ++ [wire (exited_msg (c_username c))]) <->
  exists r, lit "exit now" = EXIT_COMMAND ++ r.
Proof. intros c. apply (exit_iff_prefix c (lit "exit now") []); try reflexivity; [unfold c; simpl; lia|fits_tac]. Defined.

Lemma eof_resends_forever_witness :
  let c := mkClient SLoop 3 0 [] [] (lit "alice") true (Some (lit "hi")) [] in
  run_client 3 c = Running (add_sent (repeat (wire (chat_msg (c_username c) (lit "hi"))) 3) c).
Proof.
  intros c. apply (eof_resends_forever c (lit "hi") 3); try reflexivity. unfold c; simpl; lia.
Defined.

Lemma long_username_spills_witness :
  exists c, run_client (0 + 4) (start (line AUTH_PASSWORD ++ line (repeat x61 49 ++ lit "bob") ++ []) 0 []) =
    Running c /\ c_username c = repeat x61 49 /\
    c_sent c = [wire (repeat x61 49 ++ lit " joined"); wire (repeat x61 49 ++ lit ": " ++ line (lit "bob"))].
Proof.
  apply (long_username_spills AUTH_PASSWORD (repeat x61 49) (lit "bob") [] 0); try fits_tac.
  exists []. reflexivity.
Defined.

End Client.
