(* ===== verification/Delivery.v ===== *)
(** * From the client's [write]s to the server's [printf]

    The client of [src/client.c] and the worker of [src/server.c] meet in
    the FIFO: each [write] appends its bytes atomically ([Pipe.writer_write]),
    each [read] of a worker takes up to 256 of the buffered bytes and
    [printf("%s")] prints them up to the first NUL.  This file composes the
    two models: a worker ready at its [read] prints a message written in
    one [write] exactly (and keeps ready), so a session of [Client] whose
    writes are each read before the next one is printed line by line, in
    order; two writes that are buffered before one [read] lose the second
    message. *)

From S2P Require Import Prelude CString Pipe Mutex Server Scenarios ServerInv Client.
From stdpp Require Import strings.

Module Delivery.
Import CString Pipe Mutex Server Scenarios ServerInv Client.

Section Ready.
Context {MS : MutexSem}.

(** Worker [i] is blocked in its [read] of line 45 on a descriptor of the
    FIFO, a client holds the write end, the mutex is free and [exitFlag]
    is 0. *)
Definition at_read (i : nat) (s : sys) : Prop :=
  exited s = false /\ s_mutex s = None /\ s_exit s = 0%Z /\ k_writers (s_k s) <> 0 /\
  match s_workers s !! i with
  | Some w => w_pc w = WRead /\ w_fd w ∈ k_fds (s_k s)
  | None => False
  end.

(** ... and nothing is buffered. *)
Definition ready (i : nat) (s : sys) : Prop := at_read i s /\ k_data (s_k s) = [].

#[export] Instance at_read_dec i s : Decision (at_read i s).
Proof. unfold at_read. destruct (s_workers s !! i); apply _. Defined.
#[export] Instance ready_dec i s : Decision (ready i s).
Proof. unfold ready. apply _. Defined.

(** Lines 45-63 for one message: [read], [printf], lock, test of
    [exitFlag], unlock. *)
Definition read_cycle (i : nat) : list label := repeat (LWorker i) 5.

(** A client's [write] of [bs], then the read cycle of worker [i]. *)
Definition deliver (i : nat) (bs : list byte) : list label := LClient (CWrite bs) :: read_cycle i.

Definition deliver_all (i : nat) (sent : list (list byte)) : list label := mjoin (deliver i <$> sent).

(** The first worker, started and blocked at its [read] (a reachable
    state: [sched_line42], then the unlock of line 42). *)
Definition st_ready : sys := state_of normal_mutex (sched_line42 ++ [LWorker 0]).

(** ... and then a client's [write] of 300 bytes without a NUL. *)
Definition st_full : sys :=
  state_of normal_mutex (sched_line42 ++ [LWorker 0; LClient (CWrite (repeat x61 300))]).

(** What the server prints for the lines of one session. *)
Definition session_lines (u : list byte) (ms : list (list byte)) : list (list byte) :=
  [u ++ lit " joined"] ++ ((fun m => u ++ lit ": " ++ line m) <$> ms) ++ [u ++ lit " exited"].

End Ready.

Section Lemmas.
Context {MS : MutexSem}.
Local Arguments exited : simpl never.

(** A [write] of at most [PIPE_BUF] bytes appends them to the FIFO. *)
Lemma step_write s bs :
  exited s = false -> k_writers (s_k s) <> 0 -> k_fds (s_k s) <> [] -> length bs <= PIPE_BUF ->
  step s (LClient (CWrite bs)) =
  Some (set_k (mkKernel (k_fifo (s_k s)) (k_writers (s_k s)) (k_data (s_k s) ++ bs) (k_fds (s_k s))) s).
Proof.
  intros H Hw Hf Hl. unfold step. rewrite H. simpl. unfold writer_write.
  by rewrite decide_True.
Qed.

Lemma at_read_write i s bs :
  at_read i s ->
  at_read i (set_k (mkKernel (k_fifo (s_k s)) (k_writers (s_k s)) (k_data (s_k s) ++ bs) (k_fds (s_k s))) s).
Proof. destruct s as [[]]. done. Qed.

(** The read cycle of a worker at its [read] with [d] buffered, [d] at most
    [buffer]'s size: one [read] takes all of [d], [printf] prints what
    [buffer] then holds, and the worker is back at its [read] with nothing
    buffered. *)
Lemma read_cycle_print i s w :
  at_read i s -> s_workers s !! i = Some w ->
  k_data (s_k s) <> [] -> length (k_data (s_k s)) <= BUFFER_SIZE ->
  exists s', run step s (read_cycle i) = Some s' /\
    s_log s' = s_log s ++ [print_event (S i) (buf_store (k_data (s_k s)) (w_buf w))] /\
    ready i s'.
Proof.
  intros (Hex & Hmx & Hexit & Hwr & Hw) Hwi Hd Hlen. rewrite Hwi in Hw. destruct Hw as [Hpc Hfd].
  open_worker s w i He.
  unfold read_cycle. cbn [repeat run].
  wstep He Hwi. unfold sys_read. simpl. rewrite decide_True by done.
  match goal with Hd : ?d <> [] |- _ => destruct d as [|b bs]; [done|] end.
  rewrite take_ge, drop_ge by (unfold BUFFER_SIZE in *; lia). simpl_sys.
  do 4 wstep He Hwi.
  rewrite unlock_owner, list_insert_insert_eq, app_nil_r.
  eexists. split; [reflexivity|]. split; [done|].
  unfold ready, at_read. simpl_sys. split_and!; try done.
  by rewrite list_lookup_insert_eq.
Qed.

Lemma print_wire i m t b : NUL ∉ m -> print_event i (buf_store (wire m ++ t) b) = EvPrint i m.
Proof. intros Hn. unfold print_event, wire. rewrite <- app_assoc. cbn [app]. by rewrite read_cstr_store. Qed.

(** A message written in one [write] and read before the next one is
    printed exactly. *)
Lemma deliver_one i s m :
  ready i s -> NUL ∉ m -> length m < BUFFER_SIZE ->
  exists s', run step s (deliver i (wire m)) = Some s' /\
    s_log s' = s_log s ++ [EvPrint (S i) m] /\ ready i s'.
Proof.
  intros [Ha Hd] Hn Hlen. pose proof Ha as (Hex & _ & _ & Hwr & Hw).
  destruct (s_workers s !! i) as [w|] eqn:Hwi; [|done]. destruct Hw as [_ Hfd].
  assert (length (wire m) <= BUFFER_SIZE) by (rewrite length_wire; lia).
  unfold deliver. cbn [run].
  rewrite step_write; [|done|done|intros Hf; rewrite Hf in Hfd; set_solver
                      |unfold BUFFER_SIZE, PIPE_BUF in *; lia].
  cbv beta iota.
  set (s1 := set_k _ s).
  assert (Hd1 : k_data (s_k s1) = wire m) by (unfold s1; simpl_sys; by rewrite Hd).
  destruct (read_cycle_print i s1 w) as (s' & Hr & Hl & Hs');
    [apply at_read_write, Ha|done|rewrite Hd1; by destruct m|by rewrite Hd1|].
  exists s'. rewrite Hr, Hl, Hd1.
  rewrite <- (app_nil_r (wire m)), print_wire by done. done.
Qed.

Lemma deliver_all_cons i bs sent :
  deliver_all i (bs :: sent) = deliver i bs ++ deliver_all i sent.
Proof. done. Qed.

(** Messages each written in one [write] and read before the next are
    printed exactly, in order. *)
Lemma deliver_all_prints i s ms :
  ready i s -> Forall (fun m => NUL ∉ m /\ length m < BUFFER_SIZE) ms ->
  exists s', run step s (deliver_all i (wire <$> ms)) = Some s' /\
    s_log s' = s_log s ++ (EvPrint (S i) <$> ms) /\ ready i s'.
Proof.
  revert s. induction ms as [|m ms IH]; intros s Hr Hf.
  - exists s. by rewrite app_nil_r.
  - apply Forall_cons in Hf as [[Hn Hl] Hf].
    destruct (deliver_one i s m Hr Hn Hl) as (s1 & H1 & L1 & R1).
    destruct (IH s1 R1 Hf) as (s2 & H2 & L2 & R2).
    exists s2. rewrite fmap_cons, deliver_all_cons, run_app, H1, H2, L2, L1.
    by rewrite <- app_assoc.
Qed.

Lemma session_lines_wire u ms :
  [wire (u ++ lit " joined")] ++ ((fun m => wire (u ++ lit ": " ++ line m)) <$> ms)
    ++ [wire (u ++ lit " exited")] = wire <$> session_lines u ms.
Proof. unfold session_lines. rewrite !fmap_app, <- list_fmap_compose. done. Qed.

(** Every line of a session fits in the server's [buffer] with its NUL
    when the user name and the messages are short enough. *)
Lemma session_lines_fit u ms :
  fits USERNAME_SIZE u ->
  Forall (fun m => fits MESSAGE_SIZE m /\ length u + length m + 3 < BUFFER_SIZE) ms ->
  Forall (fun m => NUL ∉ m /\ length m < BUFFER_SIZE) (session_lines u ms).
Proof.
  intros (Hn & _ & Hu) Hms. unfold session_lines, USERNAME_SIZE, BUFFER_SIZE in *.
  assert (forall t, NUL ∉ lit t -> NUL ∉ u ++ lit t) as Hlit by set_solver.
  apply Forall_app; split; [|apply Forall_app; split].
  - constructor; [|done]. split; [apply Hlit; by apply (bool_decide_eq_true _)|].
    rewrite length_app. simpl. lia.
  - apply Forall_fmap. eapply Forall_impl; [exact Hms|]. intros m [(Hm & _ & _) Hl]. simpl. split.
    + unfold line. pose proof nul_newline. set_solver.
    + rewrite !length_app. simpl. unfold line. rewrite length_app. simpl. lia.
  - constructor; [|done]. split; [apply Hlit; by apply (bool_decide_eq_true _)|].
    rewrite length_app. simpl. lia.
Qed.

(** C14: end to end, the session of [Client.client_session] (a password,
    a user name, messages, [exit]) whose writes are each read by a worker
    before the next one arrives is printed by the server line by line, in
    order: "u joined", "u: m" with the newline [fgets] kept, "u exited". *)
Theorem session_printed p u ms e rest k fuel i s :
  fits PASSWORD_SIZE p -> (exists r, p = AUTH_PASSWORD ++ r) ->
  fits USERNAME_SIZE u ->
  Forall (fun m => fits MESSAGE_SIZE m /\
                   strncmp_eq (length EXIT_COMMAND) (line m) EXIT_COMMAND = false /\
                   length u + length m + 3 < BUFFER_SIZE) ms ->
  fits MESSAGE_SIZE e -> (exists r, e = EXIT_COMMAND ++ r) ->
  k + length ms + 4 <= fuel -> ready i s ->
  exists s',
    run step s (deliver_all i (sent_of (run_client fuel
      (start (line p ++ line u ++ mjoin (line <$> ms) ++ line e ++ rest) k [])))) = Some s' /\
    s_log s' = s_log s ++ (EvPrint (S i) <$> session_lines u ms).
Proof.
  intros Hp Hpa Hu Hms He Hea Hf Hr.
  rewrite client_session; try done; [|eapply Forall_impl; [exact Hms|naive_solver]].
  cbn [sent_of]. rewrite session_lines_wire.
  destruct (deliver_all_prints i s (session_lines u ms) Hr) as (s' & H1 & H2 & _).
  { apply session_lines_fit; [done|]. eapply Forall_impl; [exact Hms|naive_solver]. }
  eauto.
Qed.

(** C15: two messages written before the worker's [read] are taken by one
    [read]; [printf] prints the first, up to its NUL, and the second is
    consumed without ever being printed. *)
Theorem coalesced_write_lost i s m1 m2 :
  ready i s -> NUL ∉ m1 -> length (wire m1 ++ wire m2) <= BUFFER_SIZE ->
  exists s', run step s ([LClient (CWrite (wire m1)); LClient (CWrite (wire m2))] ++ read_cycle i) = Some s' /\
    s_log s' = s_log s ++ [EvPrint (S i) m1] /\ ready i s'.
Proof.
  intros [Ha Hd] Hn Hlen. pose proof Ha as (Hex & _ & _ & Hwr & Hw).
  destruct (s_workers s !! i) as [w|] eqn:Hwi; [|done]. destruct Hw as [_ Hfd].
  rewrite length_app in Hlen.
  assert (Hfds : k_fds (s_k s) <> []) by (intros Hf; rewrite Hf in Hfd; set_solver).
  cbn [app run]. rewrite step_write; [|done..|unfold BUFFER_SIZE, PIPE_BUF in *; lia].
  cbv beta iota. set (s1 := set_k _ s).
  rewrite step_write; [|done..|unfold BUFFER_SIZE, PIPE_BUF in *; lia].
  cbv beta iota. set (s2 := set_k _ s1).
  assert (Hd2 : k_data (s_k s2) = wire m1 ++ wire m2) by (unfold s2, s1; simpl_sys; by rewrite Hd).
  destruct (read_cycle_print i s2 w) as (s' & Hr & Hl & Hs');
    [apply at_read_write, at_read_write, Ha|done|rewrite Hd2; by destruct m1
    |rewrite Hd2, length_app; lia|].
  exists s'. rewrite Hr, Hl, Hd2, print_wire by done. done.
Qed.

(** A [read] that finds bytes in the FIFO takes at most [BUFFER_SIZE] of
    them into [buffer], and the [printf] of line 47 prints [buffer]. *)
Lemma read_print i s w :
  at_read i s -> s_workers s !! i = Some w -> k_data (s_k s) <> [] ->
  exists s', run step s [LWorker i; LWorker i] = Some s' /\
    s_log s' = s_log s ++ [print_event (S i) (buf_store (take BUFFER_SIZE (k_data (s_k s))) (w_buf w))].
Proof.
  intros (Hex & Hmx & Hexit & Hwr & Hw) Hwi Hd. rewrite Hwi in Hw. destruct Hw as [Hpc Hfd].
  open_worker s w i He. cbn [run].
  wstep He Hwi. unfold sys_read. simpl. rewrite decide_True by done.
  match goal with Hd : ?d <> [] |- _ => destruct d as [|b bs]; [done|] end. simpl_sys.
  wstep He Hwi. eexists. split; [reflexivity|]. done.
Qed.

(** C8: [read] is given all 256 bytes of [buffer] and nothing terminates
    them: whenever a worker at its [read] finds [BUFFER_SIZE] bytes or more
    buffered with no NUL among the first [BUFFER_SIZE], its [read] fills
    [buffer] and the [printf("%s\n", buffer)] of line 47 reads past its
    end. *)
Theorem full_read_overruns s i w :
  reachable MS s -> at_read i s -> s_workers s !! i = Some w ->
  BUFFER_SIZE <= length (k_data (s_k s)) -> NUL ∉ take BUFFER_SIZE (k_data (s_k s)) ->
  exists s', run step s [LWorker i; LWorker i] = Some s' /\
    s_log s' = s_log s ++ [EvUB (S i) UBPrintOverrun].
Proof.
  intros Hr Ha Hwi Hlen Hn.
  pose proof (Forall_lookup_1 _ _ _ _ (bufs_sized_reachable s Hr) Hwi) as Hb. simpl in Hb.
  destruct (read_print i s w) as (s' & Hrun & Hl); [done|done| |].
  { intros E. rewrite E in Hlen. unfold BUFFER_SIZE in Hlen. simpl in Hlen. lia. }
  exists s'. rewrite Hrun, Hl. unfold print_event.
  rewrite read_cstr_store_full; [done|done|]. rewrite length_take, Hb. lia.
Qed.

(** The writes of a client are the wires of their C strings. *)
Lemma framed_payloads l :
  Forall (fun w => exists x, w = wire x /\ NUL ∉ x) l ->
  l = wire <$> (cstr_prefix <$> l) /\ Forall (fun x => NUL ∉ x) (cstr_prefix <$> l).
Proof.
  induction l as [|w l IH]; intros Hl; [done|].
  apply Forall_cons in Hl as [(x & -> & Hx) Hl]. destruct (IH Hl) as [Heq Hn].
  rewrite !fmap_cons. rewrite <- (app_nil_r (wire x)), cstr_prefix_wire, app_nil_r by done.
  split; [by rewrite <- Heq|by constructor].
Qed.

(** C23: for any standard input and any outcomes of [open] and [write],
    if every write of the client fits in the server's [buffer] and each
    is read by a worker before the next one arrives, the server prints
    exactly the C string of each write, in order. *)
Theorem client_writes_printed inp k wok n i s :
  let sent := sent_of (run_client n (start inp k wok)) in
  ready i s -> Forall (fun w => length w <= BUFFER_SIZE) sent ->
  exists s', run step s (deliver_all i sent) = Some s' /\
    s_log s' = s_log s ++ (EvPrint (S i) <$> (cstr_prefix <$> sent)).
Proof.
  intros sent Hr Hlen.
  destruct (framed_payloads sent (writes_framed inp k wok n)) as [Heq Hn].
  destruct (deliver_all_prints i s (cstr_prefix <$> sent) Hr) as (s' & H1 & H2 & _).
  { rewrite Heq, Forall_fmap in Hlen. rewrite Forall_forall in Hlen, Hn |- *.
    intros x Hx. split; [by apply Hn|]. specialize (Hlen x Hx). simpl in Hlen.
    rewrite length_wire in Hlen. lia. }
  exists s'. by rewrite <- Heq in H1.
Qed.

End Lemmas.

(** ** Witnesses *)

Ltac decide_tac := apply (bool_decide_eq_true _); vm_compute; reflexivity.

Lemma session_printed_witness :
  reachable normal_mutex st_ready /\
  exists s',
    run (step (MS := normal_mutex)) st_ready (deliver_all 0 (sent_of (run_client 5
      (start (line AUTH_PASSWORD ++ line (lit "alice") ++ mjoin (line <$> [lit "hello"]) ++
              line EXIT_COMMAND ++ []) 0 [])))) = Some s' /\
    s_log s' = s_log st_ready ++ (EvPrint 1 <$> session_lines (lit "alice") [lit "hello"]).
Proof.
  split; [apply state_of_reachable; vm_compute; eauto|].
  apply (session_printed AUTH_PASSWORD (lit "alice") [lit "hello"] EXIT_COMMAND [] 0 5 0 st_ready);
    try decide_tac; exists []; reflexivity.
Defined.

Lemma coalesced_write_lost_witness :
  reachable normal_mutex st_ready /\
  exists s', run (step (MS := normal_mutex)) st_ready
      ([LClient (CWrite (wire (lit "alice joined"))); LClient (CWrite (wire (lit "alice: hi")))] ++
       read_cycle 0) = Some s' /\
    s_log s' = s_log st_ready ++ [EvPrint 1 (lit "alice joined")] /\ ready 0 s'.
Proof.
  split; [apply state_of_reachable; vm_compute; eauto|].
  apply (coalesced_write_lost 0 st_ready (lit "alice joined") (lit "alice: hi")); try decide_tac.
Defined.

Lemma client_writes_printed_witness :
  let sent := sent_of (run_client 5 (start (line AUTH_PASSWORD ++ line (lit "alice") ++
                                            line (lit "hello") ++ line EXIT_COMMAND) 0 [])) in
  reachable normal_mutex st_ready /\
  exists s', run (step (MS := normal_mutex)) st_ready (deliver_all 0 sent) = Some s' /\
    s_log s' = s_log st_ready ++ (EvPrint 1 <$> (cstr_prefix <$> sent)).
Proof.
  intros sent. split; [apply state_of_reachable; vm_compute; eauto|].
  apply client_writes_printed; decide_tac.
Defined.

Lemma full_read_overruns_witness :
  exists s', run (step (MS := normal_mutex)) st_full [LWorker 0; LWorker 0] = Some s' /\
    s_log s' = s_log st_full ++ [EvUB 1 UBPrintOverrun].
Proof.
  assert (reachable normal_mutex st_full) as Hr by (apply state_of_reachable; vm_compute; eauto).
  case_eq (s_workers st_full !! 0); [|intros E; vm_compute in E; discriminate].
  intros w E. apply (full_read_overruns st_full 0 w Hr); [decide_tac|exact E|vm_compute; lia|].
  vm_compute. set_solver.
Defined.

End Delivery.
