(* ===== verification/Registry.v ===== *)
(** * The contract of the specification, as an abstract machine

    What [spec.md] promises, independently of the code: the Connection
    Registry of section 4.2 ([tryAdmit], [release], [requestShutdown] on
    [activeCount] and [shutdown], with the invariant [activeCount <=
    capacity] of section 3), as a step relation on [reg].  [Refinement]
    relates the model of [src/server.c] to it. *)

From S2P Require Import Prelude.

Module Registry.

(** ** Connection Registry (sections 3 and 4.2) *)

Record reg := mkReg { active : nat; shutdown : bool }.

Definition capacity : nat := 10.

(** [tryAdmit()]: under the lock, increments and answers [true] when
    [activeCount < capacity]. *)
Definition tryAdmit (r : reg) : reg * bool :=
  if decide (active r < capacity) then (mkReg (S (active r)) (shutdown r), true) else (r, false).

(** [release()]: decrements, with a floor at 0. *)
Definition release (r : reg) : reg := mkReg (pred (active r)) (shutdown r).

(** [requestShutdown()]: sets the flag; idempotent. *)
Definition requestShutdown (r : reg) : reg := mkReg (active r) true.

Definition reg_inv (r : reg) : Prop := active r <= capacity.

(** The operations that change the registry. *)
Inductive reg_step : reg -> reg -> Prop :=
| RAdmit r r' : tryAdmit r = (r', true) -> reg_step r r'
| RRelease r : reg_step r (release r)
| RShutdown r : reg_step r (requestShutdown r).

(** ** Lemmas *)

(** The operations keep [activeCount <= capacity]. *)
Lemma reg_step_inv r r' : reg_inv r -> reg_step r r' -> reg_inv r'.
Proof.
  unfold reg_inv. intros Hr Hs. destruct Hs as [r r' H| |];
    unfold tryAdmit, release, requestShutdown in *; simpl; try lia.
  case_decide; simplify_eq/=. unfold capacity in *. lia.
Qed.

End Registry.
