(* ===== verification/Refinement.v ===== *)
(** * The code against the contract of the specification

    The abstraction function [reg_abs] reads [connectedClientsCount] and
    [exitFlag] of the model of [src/server.c] as the Connection Registry
    of [Registry].  Under a [CheckedMutex], every step of the server is a
    stutter or an operation of the Registry ([tryAdmit] at line 100,
    [release] at line 51, [requestShutdown] at line 120), except the
    increment of line 38, an increment that no capacity test guards
    ([registry_refinement]); every statement that reads or writes the
    Registry runs while its thread owns the mutex ([lock_discipline]);
    and whatever an unlock by a non-owner does, the owner of the mutex can
    always run its next statement ([owner_can_proceed]). *)

From S2P Require Import Prelude CString Pipe Mutex Server Scenarios ServerInv ServerCount Registry.

Module Refinement.
Import CString Pipe Mutex Server Scenarios ServerInv ServerCount.

(** ** Abstraction functions *)

Definition reg_abs (s : sys) : Registry.reg :=
  Registry.mkReg (Z.to_nat (s_count s)) (bool_decide (s_exit s <> 0%Z)).

(** The thread a label runs. *)
Definition actor (l : label) : option tid :=
  match l with LMain _ => Some 0 | LWorker i => Some (S i) | LClient _ => None end.

(** The statement [l] runs in [s] reads or writes [connectedClientsCount]
    or [exitFlag] (lines 38, 51, 60, 99, 100, 110, 120). *)
Definition accesses_registry (s : sys) (l : label) : bool :=
  match l with
  | LMain _ =>
      match s_main s with
      | MCheckCap | MIncLoad | MIncStore | MCheckExit | MSetExit => true
      | _ => false
      end
  | LWorker i =>
      match s_workers s !! i with
      | Some w =>
          match w_pc w with
          | WIncLoad | WIncStore | WDecLoad | WDecStore | WCheckExit => true
          | _ => false
          end
      | None => false
      end
  | LClient _ => false
  end.

(** [main] between its capacity test and its store found room. *)
Definition admit_guard (s : sys) : Prop :=
  s_main s = MIncLoad \/ s_main s = MIncStore -> (s_count s < MAX_CLIENTS)%Z.

(** ** Progress of the owner of the mutex *)

(** C20: whatever the semantics of an unlock by a non-owner, the thread
    that owns [clientsMutex] can always execute its next statement: no
    critical section of the code contains a blocking call, so no thread
    waits for the mutex behind a blocked owner. *)
Theorem owner_can_proceed `{MS : MutexSem} s t :
  reachable MS s -> s_mutex s = Some t ->
  exists l s', actor l = Some t /\ step s l = Some s'.
Proof.
  intros Hr Hm. pose proof (owner_in_cs_reachable s Hr t Hm) as Hh.
  unfold holds, holds_in in Hh. unfold step. destruct t as [|i].
  - exists (LMain true). unfold exited, main_step.
    destruct (s_main s); try done; eexists; split; reflexivity.
  - destruct (s_workers s !! i) as [w|] eqn:Hw; [|done].
    rewrite (worker_not_exited s i w Hr Hw).
    exists (LWorker i). unfold worker_step. rewrite Hw.
    destruct (w_pc w); try done; eexists; split; reflexivity.
Qed.

(** ** The Registry *)

Section Checked.
Context {MS : MutexSem} `{!CheckedMutex MS}.

(** A worker's statement changes the counter only at its stores. *)
Lemma worker_step_count i s s' w :
  worker_step i s = Some s' -> s_workers s !! i = Some w -> is_store (w_pc w) = false ->
  s_count s' = s_count s.
Proof.
  intros H Hw Hst. unfold worker_step, acquire, release in H. rewrite Hw in H.
  split_step H; simpl_sys; try done;
    repeat match goal with E : w_pc _ = _ |- _ => rewrite E in *; clear E end; done.
Qed.

Lemma admit_guard_step s l s' :
  reachable MS s -> admit_guard s -> step s l = Some s' -> admit_guard s'.
Proof.
  intros Hr Hg Hl. destruct (count_inv_reachable s Hr) as (Hme & _).
  apply step_cases in Hl as (_ & [[ok H]|[[i H]|[a H]]]).
  - unfold admit_guard in *. unfold main_step, acquire, release in H.
    split_step H; simpl_sys; intros [Hm|Hm]; try discriminate;
      repeat match goal with E : s_main _ = _ |- _ => rewrite E in *; clear E end;
      try case_decide; simplify_eq/=; auto.
  - destruct (worker_step_some _ _ _ H) as [w Hw].
    intros Hm. assert (Hs : s_main s' = s_main s).
    { unfold worker_step, acquire, release in H. rewrite Hw in H. by split_step H. }
    rewrite Hs in Hm. rewrite (worker_step_count i s s' w H Hw); [by apply Hg|].
    destruct (is_store (w_pc w)) eqn:E; [|done]. apply store_holds in E.
    by rewrite (me_main_excl s i w Hme) in E; [|destruct Hm as [-> | ->]|].
  - by apply client_step_kernel in H as [k ->].
Qed.

Lemma admit_guard_reachable s : reachable MS s -> admit_guard s.
Proof.
  apply reachable_ind_strong; [by intros ? [|]|apply admit_guard_step].
Qed.

Lemma reg_abs_stutter s s' :
  s_count s' = s_count s -> s_exit s' = s_exit s -> reg_abs s' = reg_abs s.
Proof. unfold reg_abs. by intros -> ->. Qed.

(** The store of line 100 is [tryAdmit] answering [true]. *)
Lemma reg_abs_admit s :
  (0 <= s_count s < MAX_CLIENTS)%Z ->
  Registry.tryAdmit (reg_abs s) = (reg_abs (set_count (s_count s + 1) s), true).
Proof.
  intros Hc. unfold Registry.tryAdmit, reg_abs.
  rewrite decide_True by (simpl; unfold Registry.capacity, MAX_CLIENTS in *; lia).
  simpl_sys. do 3 f_equal. simpl. lia.
Qed.

(** C16: under a [CheckedMutex], each step of the server leaves the
    Registry ([connectedClientsCount], [exitFlag]) unchanged or performs
    one of its operations: [tryAdmit] (line 100, after the test of line
    99), [release] (line 51), [requestShutdown] (line 120); the one
    exception is the worker's increment of line 38, which adds 1 with no
    capacity test. *)
Theorem registry_refinement s l s' :
  reachable MS s -> step s l = Some s' ->
  reg_abs s' = reg_abs s \/ Registry.reg_step (reg_abs s) (reg_abs s') \/
  (exists i w, l = LWorker i /\ s_workers s !! i = Some w /\ w_pc w = WIncStore /\
     reg_abs s' = Registry.mkReg (S (Registry.active (reg_abs s))) (Registry.shutdown (reg_abs s))).
Proof.
  intros Hr Hl. destruct (count_inv_reachable s Hr) as (_ & [Hm Hws] & Hc & _).
  pose proof (admit_guard_reachable s Hr) as Hg.
  assert (Hpos : (0 <= s_count s)%Z) by lia.
  unfold step in Hl. destruct (exited s); [done|]. destruct l as [ok|i|a]; [| |left].
  - unfold main_step, acquire, release in Hl.
    split_step Hl; try (left; by apply reg_abs_stutter); right; left.
    + (* line 100 *)
      rewrite Hm by done. apply Registry.RAdmit, reg_abs_admit.
      unfold admit_guard in Hg. split; [done|auto].
    + (* line 120 *)
      exact (Registry.RShutdown (reg_abs s)).
  - pose proof Hl as H. destruct (worker_step_some _ _ _ H) as [w Hw].
    unfold worker_step, acquire, release in Hl. rewrite Hw in Hl.
    split_step Hl; try (left; by apply reg_abs_stutter);
      match goal with E : w_pc w = _ |- _ => pose proof (Hws i w Hw) as Hreg; rewrite E in Hreg end;
      rewrite Hreg by done; unfold reg_abs; simpl_sys.
    + (* line 38 *)
      right; right. exists i, w. split_and!; try done. simpl. do 2 f_equal. lia.
    + (* line 51 *)
      right; left. replace (Z.to_nat (s_count s - 1)) with (pred (Z.to_nat (s_count s))) by lia.
      apply (Registry.RRelease (reg_abs s)).
  - apply client_step_kernel in Hl as [k ->]. by apply reg_abs_stutter.
Qed.

(** C17: under a [CheckedMutex], every statement that reads or writes
    [connectedClientsCount] or [exitFlag] runs while its thread owns
    [clientsMutex] (section 3: "All reads/writes ... occur only while
    holding the lock"). *)
Theorem lock_discipline s l :
  reachable MS s -> accesses_registry s l = true ->
  exists t, actor l = Some t /\ s_mutex s = Some t.
Proof.
  intros Hr Ha. destruct (count_inv_reachable s Hr) as (Hme & _).
  destruct l as [ok|i|a]; simpl in Ha; [exists 0|exists (S i)|done]; split; try done;
    apply Hme; unfold holds, holds_in; simpl.
  - by destruct (s_main s).
  - destruct (s_workers s !! i) as [w|]; [|done]. by destruct (w_pc w).
Qed.

End Checked.

(** ** Witnesses *)

Lemma lock_discipline_witness :
  reachable errorcheck_mutex st_quota /\ accesses_registry st_quota (LMain true) = true /\
  exists t, actor (LMain true) = Some t /\ s_mutex st_quota = Some t.
Proof.
  assert (reachable errorcheck_mutex st_quota) as Hr by reach.
  split; [exact Hr|]. split; [vm_compute; reflexivity|].
  apply (lock_discipline (MS := errorcheck_mutex) st_quota (LMain true) Hr). vm_compute. reflexivity.
Defined.

Lemma registry_refinement_witness :
  reachable errorcheck_mutex st_quota /\
  exists s', step (MS := errorcheck_mutex) st_quota (LMain true) = Some s' /\
    (reg_abs s' = reg_abs st_quota \/ Registry.reg_step (reg_abs st_quota) (reg_abs s') \/
     (exists i w, LMain true = LWorker i /\ s_workers st_quota !! i = Some w /\ w_pc w = WIncStore /\
        reg_abs s' = Registry.mkReg (S (Registry.active (reg_abs st_quota)))
                                    (Registry.shutdown (reg_abs st_quota)))).
Proof.
  assert (reachable errorcheck_mutex st_quota) as Hr by reach.
  split; [exact Hr|]. eexists. split; [vm_compute; reflexivity|].
  apply (registry_refinement (MS := errorcheck_mutex) st_quota (LMain true)); [exact Hr|].
  vm_compute. reflexivity.
Defined.

Lemma owner_can_proceed_witness :
  reachable errorcheck_mutex st_quota /\ s_mutex st_quota = Some 0 /\
  exists l s', actor l = Some 0 /\ step (MS := errorcheck_mutex) st_quota l = Some s'.
Proof.
  assert (reachable errorcheck_mutex st_quota) as Hr by reach.
  assert (s_mutex st_quota = Some 0) as Hm by (vm_compute; reflexivity).
  split_and!; [exact Hr|exact Hm|exact (owner_can_proceed st_quota 0 Hr Hm)].
Defined.

End Refinement.
