(* ===== verification/Lifecycle.v ===== *)
(** * How a worker ends, or does not

    The end of a [ClientHandler] (lines 45-68 of [src/server.c]) as the
    worker sees it through the shared FIFO:
    - [read] returns 0 only when no client at all holds the FIFO open
      ([Pipe.sys_read]), whichever client the worker was created for;
      once it returns 0 the worker runs the end-of-stream path in six
      statements: it takes 1 from the counter, closes its descriptor and
      exits ([worker_disconnect]);
    - a worker created for a failed [open] ([clientFd = -1], line 96 does
      not test it) gets [EBADF] from every [read] and spins forever
      through lines 45-63, without changing the state
      ([bad_fd_spins]). *)

From S2P Require Import Prelude CString Pipe Mutex Server Scenarios ServerInv ServerCount Delivery.

Module Lifecycle.
Import CString Pipe Mutex Server Scenarios ServerInv ServerCount Delivery.

(** Worker [i] is at its [read] on a descriptor of the FIFO, and nothing is
    buffered. *)
Definition waiting (i : nat) (s : sys) : Prop :=
  match s_workers s !! i with
  | Some w => w_pc w = WRead /\ w_fd w ∈ k_fds (s_k s)
  | None => False
  end /\ k_data (s_k s) = [].

(** ... the mutex is free and no client holds the FIFO open. *)
Definition at_eof (i : nat) (s : sys) : Prop :=
  exited s = false /\ s_mutex s = None /\ k_writers (s_k s) = 0 /\ waiting i s.

(** Worker [i] is at its [read] on a descriptor the process does not
    have open, the mutex is free and [exitFlag] is 0. *)
Definition bad_fd (i : nat) (s : sys) : Prop :=
  exited s = false /\ s_mutex s = None /\ s_exit s = 0%Z /\
  match s_workers s !! i with
  | Some w => w_pc w = WRead /\ w_fd w ∉ k_fds (s_k s)
  | None => False
  end.

#[export] Instance waiting_dec i s : Decision (waiting i s).
Proof. unfold waiting. destruct (s_workers s !! i); apply _. Defined.
#[export] Instance at_eof_dec i s : Decision (at_eof i s).
Proof. unfold at_eof. apply _. Defined.
#[export] Instance bad_fd_dec i s : Decision (bad_fd i s).
Proof. unfold bad_fd. destruct (s_workers s !! i); apply _. Defined.

(** Lines 45, 49-52, 54, 67-68. *)
Definition finish (i : nat) : list label := repeat (LWorker i) 6.

(** Lines 45, 58-63 after a failed [read]. *)
Definition spin (i : nat) : list label := repeat (LWorker i) 4.

(** Two clients connected, each counted by its worker, both workers at
    their [read]; then one of the clients closes the FIFO. *)
Definition sched_one_left : list label :=
  setup ++ admit_conn ++ [LClient COpen] ++ admit_conn ++ worker_start 0 ++ [LWorker 0] ++
  worker_start 1 ++ [LWorker 1] ++ [LClient CClose].

(** ... and then the other client closes it as well. *)
Definition st_all_left : sys := state_of errorcheck_mutex (sched_one_left ++ [LClient CClose]).

(** [open] fails once (line 96): the worker created for it reads [-1]. *)
Definition sched_bad_open : list label :=
  setup ++ [LMain false] ++ repeat (LMain true) 9 ++ worker_start 0 ++ [LWorker 0].
Definition st_bad_open : sys := state_of errorcheck_mutex sched_bad_open.

Section Lemmas.
Context {MS : MutexSem}.

(** C18: once no client holds the FIFO open, a worker at its [read] ends in
    six statements: [read] returns 0, it takes 1 from the counter under the
    lock, closes its descriptor and exits. *)
Theorem worker_disconnect i s :
  at_eof i s ->
  exists w s', s_workers s !! i = Some w /\ run step s (finish i) = Some s' /\
    s_count s' = (s_count s - 1)%Z /\ s_mutex s' = None /\ s_log s' = s_log s /\
    k_fds (s_k s') = remove_fd (w_fd w) (k_fds (s_k s)) /\
    s_workers s' !! i = Some (mkWorker WExit (w_fd w) (s_count s) (w_buf w)).
Proof.
  intros (Hex & Hmx & Hwr & Hw & Hd).
  destruct (s_workers s !! i) as [w|] eqn:Hwi; [|done]. destruct Hw as [Hpc Hfd].
  open_worker s w i He.
  unfold finish. cbn [repeat run].
  wstep He Hwi. unfold sys_read. simpl. rewrite decide_True by done. flat.
  do 5 wstep He Hwi. unfold sys_close. simpl. rewrite decide_True by done. flat.
  rewrite unlock_owner, !list_insert_insert_eq, app_nil_r.
  do 2 eexists. split; [reflexivity|]. split; [reflexivity|]. simpl.
  split_and!; try done. by rewrite list_lookup_insert_eq.
Qed.

Lemma spin_once i s : bad_fd i s -> run step s (spin i) = Some s.
Proof.
  intros (Hex & Hmx & Hexit & Hw).
  destruct (s_workers s !! i) as [w|] eqn:Hwi; [|done]. destruct Hw as [Hpc Hfd].
  open_worker s w i He.
  unfold spin. cbn [repeat run].
  wstep He Hwi. unfold sys_read. simpl. rewrite decide_False by done. flat.
  do 3 wstep He Hwi.
  rewrite unlock_owner, !list_insert_insert_eq, app_nil_r, list_insert_id by done.
  done.
Qed.

(** C19: a worker created for a failed [open] reads [-1] and spins: for
    every [n], [n] rounds of lines 45 and 58-63 lead back to exactly the
    same state, so it never decrements the counter, never exits, and keeps
    taking the mutex. *)
Theorem bad_fd_spins i s n :
  bad_fd i s -> run step s (mjoin (repeat (spin i) n)) = Some s.
Proof.
  intros Hb. induction n as [|n IH]; [done|].
  change (mjoin (repeat (spin i) (S n))) with (spin i ++ mjoin (repeat (spin i) n)).
  rewrite run_app, spin_once by done. exact IH.
Qed.

End Lemmas.

(** ** Witnesses *)

Ltac decide_tac := apply (bool_decide_eq_true _); vm_compute; reflexivity.

Lemma worker_disconnect_witness :
  reachable errorcheck_mutex st_all_left /\
  exists w s', s_workers st_all_left !! 0 = Some w /\ run (step (MS := errorcheck_mutex)) st_all_left (finish 0) = Some s' /\
    s_count s' = (s_count st_all_left - 1)%Z /\ s_mutex s' = None /\ s_log s' = s_log st_all_left /\
    k_fds (s_k s') = remove_fd (w_fd w) (k_fds (s_k st_all_left)) /\
    s_workers s' !! 0 = Some (mkWorker WExit (w_fd w) (s_count st_all_left) (w_buf w)).
Proof.
  split; [apply state_of_reachable; vm_compute; eauto|].
  apply worker_disconnect. decide_tac.
Defined.

Lemma bad_fd_spins_witness :
  reachable errorcheck_mutex st_bad_open /\
  run (step (MS := errorcheck_mutex)) st_bad_open (mjoin (repeat (spin 0) 3)) = Some st_bad_open.
Proof.
  split; [apply state_of_reachable; vm_compute; eauto|].
  apply bad_fd_spins. decide_tac.
Defined.

End Lifecycle.
